(** * Isolation game agent ([game_agent.py]): search kernels, timeout guard,
      iterative deepening and heuristic evaluators.

    The development is a shallow embedding of [game_agent.py].  The board
    class ([isolation.Board]) is an external collaborator; it enters as an
    interface ([BoardAPI]) whose methods are pure functions.  Search code
    raises and catches [SearchTimeout], reads a clock through the
    [time_left] callable and calls back into the board and the injected
    evaluator; all of this is made explicit by a small state-and-error
    monad over a [world] that holds the number of clock readings so far
    and the log of calls made. *)

From Stdlib Require Import ZArith QArith Qminmax List ListSet Bool Lia Lqa.
From Stdlib Require Import Orders OrdersTac.
Import ListNotations.

Open Scope Z_scope.

(* ================================================================== *)
(** * Scores: Python floats with the two infinities                    *)
(* ================================================================== *)

(** A score is what [float("-inf")], [float("inf")] or a finite float
    denotes.  Finite values are rationals; the search only ever compares
    scores and picks one of two, so no rounding is involved there. *)
Module Score.

Inductive score : Type :=
| NegInf
| Fin (q : Q)
| PosInf.

Definition t := score.

Definition le (a b : t) : Prop :=
  match a, b with
  | NegInf, _ => True
  | _, PosInf => True
  | Fin x, Fin y => (x <= y)%Q
  | _, _ => False
  end.

Definition lt (a b : t) : Prop :=
  match a, b with
  | PosInf, _ => False
  | _, NegInf => False
  | Fin x, Fin y => (x < y)%Q
  | _, _ => True
  end.

Definition eq (a b : t) : Prop :=
  match a, b with
  | NegInf, NegInf => True
  | PosInf, PosInf => True
  | Fin x, Fin y => (x == y)%Q
  | _, _ => False
  end.

(** [a <= b] and [a < b] as Python evaluates them. *)
Definition leb (a b : t) : bool :=
  match a, b with
  | NegInf, _ => true
  | _, PosInf => true
  | Fin x, Fin y => Qle_bool x y
  | _, _ => false
  end.

Definition ltb (a b : t) : bool := negb (leb b a).

(** The builtins [max(a, b)] and [min(a, b)] on two arguments: the first
    argument is kept unless the second is strictly better. *)
Definition max (a b : t) : t := if ltb a b then b else a.
Definition min (a b : t) : t := if ltb b a then b else a.

End Score.

Abbreviation NegInf := Score.NegInf.
Abbreviation PosInf := Score.PosInf.
Abbreviation Fin := Score.Fin.

Declare Scope score_scope.
Delimit Scope score_scope with S.
Infix "<=" := Score.le : score_scope.
Infix "<" := Score.lt : score_scope.
Infix "==" := Score.eq (at level 70, no associativity) : score_scope.

(** [x < y] on the clock readings and on the floats of the evaluators. *)
Definition Qltb (x y : Q) : bool := negb (Qle_bool y x).

(* ================================================================== *)
(** * Moves and the board interface                                    *)
(* ================================================================== *)

(** A move is a pair of board coordinates [(move[0], move[1])]. *)
Definition Move : Type := (Z * Z)%type.

(** The value [(-1, -1)] returned when there is nothing to play. *)
Definition NO_MOVE : Move := (-1, -1).

Definition move_eqb (a b : Move) : bool :=
  (fst a =? fst b) && (snd a =? snd b).

(** [m in moves] on a list of tuples. *)
Definition move_in (m : Move) (moves : list Move) : bool :=
  existsb (move_eqb m) moves.

Definition is_empty {A : Type} (l : list A) : bool :=
  match l with [] => true | _ :: _ => false end.

(** What the agent consumes from [isolation.Board].  [legal_moves_of] is
    [get_legal_moves(player)] with the player given. *)
Class BoardAPI (Board Player : Type) : Type := {
  width : Board -> Z;
  height : Board -> Z;
  move_count : Board -> Z;
  active_player : Board -> Player;
  get_opponent : Board -> Player -> Player;
  legal_moves_of : Board -> Player -> list Move;
  forecast_move : Board -> Move -> Board;
  is_loser : Board -> Player -> bool;
  is_winner : Board -> Player -> bool
}.

(** [get_legal_moves()] without an argument: the moves of the active
    player. *)
Definition get_legal_moves {Board Player} `{BoardAPI Board Player}
    (game : Board) : list Move :=
  legal_moves_of game (active_player game).

(* ================================================================== *)
(** * Effects: clock, call log, exceptions                             *)
(* ================================================================== *)

Inductive exn : Type :=
| SearchTimeout
| ValueError.

(** How a call ends: with a value, with an exception, or not within the
    recursion budget given to the model. *)
Inductive outcome (A : Type) : Type :=
| Ret (a : A)
| Raise (e : exn)
| OutOfFuel.
Arguments Ret {A} a.
Arguments Raise {A} e.
Arguments OutOfFuel {A}.

Definition M (W A : Type) : Type := W -> outcome A * W.

Definition ret {W A} (a : A) : M W A := fun w => (Ret a, w).
Definition raise {W A} (e : exn) : M W A := fun w => (Raise e, w).
Definition out_of_fuel {W A} : M W A := fun w => (OutOfFuel, w).

Definition bind {W A B} (c : M W A) (k : A -> M W B) : M W B :=
  fun w =>
    match c w with
    | (Ret a, w') => k a w'
    | (Raise e, w') => (Raise e, w')
    | (OutOfFuel, w') => (OutOfFuel, w')
    end.

(** [try: x = c; <k x>  except SearchTimeout: <handler>], for a
    continuation [k] that deals with its own timeouts. *)
Definition try_timeout {W A B} (c : M W A) (k : A -> M W B)
    (handler : M W B) : M W B :=
  fun w =>
    match c w with
    | (Ret a, w') => k a w'
    | (Raise SearchTimeout, w') => handler w'
    | (Raise e, w') => (Raise e, w')
    | (OutOfFuel, w') => (OutOfFuel, w')
    end.

Notation "x <- c ;; k" := (bind c (fun x => k))
  (at level 61, c at next level, right associativity).
Notation "c ;;; k" := (bind c (fun _ => k))
  (at level 61, right associativity).

(** Calls that the properties below speak about. *)
Inductive event (Board : Type) : Type :=
| ForecastCall (game : Board) (m : Move)
| ScoreCall (game : Board)
| AlphabetaCall (game : Board) (depth : Z).
Arguments ForecastCall {Board} game m.
Arguments ScoreCall {Board} game.
Arguments AlphabetaCall {Board} game depth.

(** [clock] counts the readings of [time_left] so far; [calls] is the log
    of calls, latest first. *)
Record world (Board : Type) : Type := World {
  clock : nat;
  calls : list (event Board)
}.
Arguments World {Board} clock calls.
Arguments clock {Board} w.
Arguments calls {Board} w.

Definition log {Board} (e : event Board) : M (world Board) unit :=
  fun w => (Ret tt, World (clock w) (e :: calls w)).

(* ================================================================== *)
(** * [IsolationPlayer]                                                *)
(* ================================================================== *)

(** The fields set by [__init__]; [self_id] is the player object itself,
    which the agent hands to the evaluator as its second argument. *)
Record IsolationPlayer (Board Player : Type) : Type := {
  search_depth : Z;
  score : Board -> Player -> Score.t;
  TIMER_THRESHOLD : Q;
  self_id : Player
}.
Arguments search_depth {Board Player} i.
Arguments score {Board Player} i game player.
Arguments TIMER_THRESHOLD {Board Player} i.
Arguments self_id {Board Player} i.

(** [IsolationPlayer(search_depth, score_fn, timeout)]. *)
Definition new_player {Board Player} (depth : Z)
    (score_fn : Board -> Player -> Score.t) (timeout : Q) (me : Player)
    : IsolationPlayer Board Player :=
  {| search_depth := depth;
     score := score_fn;
     TIMER_THRESHOLD := Qminus timeout (1 # 2);
     self_id := me |}.

Section Base.
Context {Board Player : Type} `{BoardAPI Board Player}.
Variable self : IsolationPlayer Board Player.

(** The [time_left] callable: its [n]-th reading (from 0) is
    [time_left n]. *)
Variable time_left : nat -> Q.

Definition time_check : M (world Board) unit :=
  fun w =>
    let w' := World (S (clock w)) (calls w) in
    if Qltb (time_left (clock w)) (TIMER_THRESHOLD self)
    then (Raise SearchTimeout, w')
    else (Ret tt, w').

(** [game.forecast_move(m)], logged. *)
Definition forecast (game : Board) (m : Move) : M (world Board) Board :=
  log (ForecastCall game m) ;;; ret (forecast_move game m).

(** [self.score(game, self)], logged. *)
Definition evaluate (game : Board) : M (world Board) Score.t :=
  log (ScoreCall game) ;;; ret (score self game (self_id self)).

End Base.

(** [for m in moves: v = body(v, m)] *)
Fixpoint for_moves {W} (moves : list Move) (v : Score.t)
    (body : Score.t -> Move -> M W Score.t) : M W Score.t :=
  match moves with
  | [] => ret v
  | m :: rest => v' <- body v m ;; for_moves rest v' body
  end.

(** The builtin [max(items, key=...)]: the key of every item is computed
    once, in order; an item replaces the current maximum only when its key
    is strictly greater; an empty sequence raises [ValueError].  The key of
    the maximum is returned along with it. *)
Fixpoint max_scan {W} (key : Move -> M W Score.t) (items : list Move)
    (best : Move) (best_key : Score.t) : M W (Move * Score.t) :=
  match items with
  | [] => ret (best, best_key)
  | m :: rest =>
      k <- key m ;;
      if Score.ltb best_key k then max_scan key rest m k
      else max_scan key rest best best_key
  end.

Definition py_max {W} (items : list Move) (key : Move -> M W Score.t)
    : M W (Move * Score.t) :=
  match items with
  | [] => raise ValueError
  | m :: rest => k <- key m ;; max_scan key rest m k
  end.

(* ================================================================== *)
(** * [MinimaxPlayer]                                                  *)
(* ================================================================== *)

Module MinimaxPlayer.
Section Methods.
Context {Board Player : Type} `{BoardAPI Board Player}.
Variable self : IsolationPlayer Board Player.
Variable time_left : nat -> Q.

Definition terminal_test (game : Board) : M (world Board) bool :=
  time_check self time_left ;;;
  ret (is_empty (get_legal_moves game)).

Fixpoint min_value (fuel : nat) (game : Board) (depth : Z) {struct fuel}
    : M (world Board) Score.t :=
  match fuel with
  | O => out_of_fuel
  | S fuel' =>
      let v := PosInf in
      t <- terminal_test game ;;
      if t then ret v
      else if depth =? 0 then evaluate self game
      else
        for_moves (get_legal_moves game) v (fun v m =>
          g' <- forecast game m ;;
          x <- max_value fuel' g' (depth - 1) ;;
          ret (Score.min v x))
  end

with max_value (fuel : nat) (game : Board) (depth : Z) {struct fuel}
    : M (world Board) Score.t :=
  match fuel with
  | O => out_of_fuel
  | S fuel' =>
      let v := NegInf in
      t <- terminal_test game ;;
      if t then ret v
      else if depth =? 0 then evaluate self game
      else
        for_moves (get_legal_moves game) v (fun v m =>
          g' <- forecast game m ;;
          x <- min_value fuel' g' (depth - 1) ;;
          ret (Score.max v x))
  end.

(** The body of [minimax]; the key of the chosen move is kept next to
    it so that the value of the root can be spoken about. *)
Definition minimax_search (fuel : nat) (game : Board) (depth : Z)
    : M (world Board) (Move * Score.t) :=
  py_max (get_legal_moves game) (fun m =>
    g' <- forecast game m ;;
    min_value fuel g' (depth - 1)).

Definition minimax (fuel : nat) (game : Board) (depth : Z)
    : M (world Board) Move :=
  r <- minimax_search fuel game depth ;; ret (fst r).

(** [get_move(game, time_left)]; [time_left] is the section variable. *)
Definition get_move (fuel : nat) (game : Board) : M (world Board) Move :=
  let best_move := NO_MOVE in
  t <- terminal_test game ;;
  if t then ret best_move
  else
    try_timeout (minimax fuel game (search_depth self))
      (fun best_move => ret best_move)
      (ret best_move).

End Methods.
End MinimaxPlayer.

(* ================================================================== *)
(** * [AlphaBetaPlayer]                                                *)
(* ================================================================== *)

Module AlphaBetaPlayer.
Section Methods.
Context {Board Player : Type} `{BoardAPI Board Player}.
Variable self : IsolationPlayer Board Player.
Variable time_left : nat -> Q.

(** The loops of [min_value] and [max_value] over the children, with
    their [break]; [child] is the recursive call. *)
Fixpoint min_loop (child : Board -> Score.t -> Score.t -> M (world Board) Score.t)
    (game : Board) (moves : list Move) (score alpha beta : Score.t)
    : M (world Board) Score.t :=
  match moves with
  | [] => ret score
  | move :: rest =>
      g' <- forecast game move ;;
      x <- child g' alpha beta ;;
      let score := Score.min score x in
      if Score.leb score alpha then ret score
      else min_loop child game rest score alpha (Score.min beta score)
  end.

Fixpoint max_loop (child : Board -> Score.t -> Score.t -> M (world Board) Score.t)
    (game : Board) (moves : list Move) (score alpha beta : Score.t)
    : M (world Board) Score.t :=
  match moves with
  | [] => ret score
  | move :: rest =>
      g' <- forecast game move ;;
      x <- child g' alpha beta ;;
      let score := Score.max score x in
      if Score.leb beta score then ret score
      else max_loop child game rest score (Score.max alpha score) beta
  end.

Fixpoint min_value (fuel : nat) (game : Board) (depth : Z)
    (alpha beta : Score.t) {struct fuel} : M (world Board) Score.t :=
  match fuel with
  | O => out_of_fuel
  | S fuel' =>
      time_check self time_left ;;;
      if depth =? 0 then evaluate self game
      else
        let score := PosInf in
        let legal_moves := get_legal_moves game in
        if is_empty legal_moves then ret score
        else
          min_loop (fun g a b => max_value fuel' g (depth - 1) a b)
            game (get_legal_moves game) score alpha beta
  end

with max_value (fuel : nat) (game : Board) (depth : Z)
    (alpha beta : Score.t) {struct fuel} : M (world Board) Score.t :=
  match fuel with
  | O => out_of_fuel
  | S fuel' =>
      time_check self time_left ;;;
      if depth =? 0 then evaluate self game
      else
        let score := NegInf in
        let legal_moves := get_legal_moves game in
        if is_empty legal_moves then ret score
        else
          max_loop (fun g a b => min_value fuel' g (depth - 1) a b)
            game legal_moves score alpha beta
  end.

(** The loop of [alphabeta] over the root moves. *)
Fixpoint root_loop (fuel : nat) (game : Board) (depth : Z)
    (moves : list Move) (alpha beta : Score.t)
    (best_score : Score.t) (best_move : Move)
    : M (world Board) (Score.t * Move) :=
  match moves with
  | [] => ret (best_score, best_move)
  | move :: rest =>
      g' <- forecast game move ;;
      score <- min_value fuel g' (depth - 1) alpha beta ;;
      let alpha := Score.max alpha score in
      if Score.ltb best_score score
      then root_loop fuel game depth rest alpha beta score move
      else root_loop fuel game depth rest alpha beta best_score best_move
  end.

(** The body of [alphabeta]; [best_score] is kept next to the move that
    is returned.  Entering the function is logged. *)
Definition alphabeta_search (fuel : nat) (game : Board) (depth : Z)
    (alpha beta : Score.t) : M (world Board) (Score.t * Move) :=
  log (AlphabetaCall game depth) ;;;
  time_check self time_left ;;;
  let best_score := NegInf in
  let best_move := NO_MOVE in
  let legal_moves := get_legal_moves game in
  if is_empty legal_moves then ret (best_score, best_move)
  else root_loop fuel game depth legal_moves alpha beta
         best_score best_move.

Definition alphabeta (fuel : nat) (game : Board) (depth : Z)
    (alpha beta : Score.t) : M (world Board) Move :=
  r <- alphabeta_search fuel game depth alpha beta ;; ret (snd r).

(** [while True: best_move = self.alphabeta(game, search_depth);
    search_depth += 1] inside [try ... except SearchTimeout: pass],
    followed by [return best_move].  A timeout in any round ends the
    loop with the [best_move] assigned so far. *)
Fixpoint deepening (fuel : nat) (game : Board) (search_depth : Z)
    (best_move : Move) {struct fuel} : M (world Board) Move :=
  match fuel with
  | O => out_of_fuel
  | S fuel' =>
      try_timeout (alphabeta fuel' game search_depth NegInf PosInf)
        (fun best_move => deepening fuel' game (search_depth + 1) best_move)
        (ret best_move)
  end.

(** The opening rule of [get_move]: the cell it takes, if any. *)
Definition opening_move (game : Board) : option Move :=
  if (move_count game =? 0) || (move_count game =? 1) then
    let first_move := (width game / 2, height game / 2) in
    if move_in first_move (legal_moves_of game (active_player game))
    then Some first_move
    else None
  else None.

Definition get_move (fuel : nat) (game : Board) : M (world Board) Move :=
  let best_move := NO_MOVE in
  let search_depth := 1 in
  match opening_move game with
  | Some first_move => ret first_move
  | None => deepening fuel game search_depth best_move
  end.

End Methods.
End AlphaBetaPlayer.

(* ================================================================== *)
(** * The heuristic evaluators                                         *)
(* ================================================================== *)

Definition Move_eq_dec (a b : Move) : {a = b} + {a <> b}.
Proof. decide equality; apply Z.eq_dec. Defined.

(** [max(a, b)] on numbers. *)
Definition Qpy_max (a b : Q) : Q := if Qltb a b then b else a.

Section Evaluators.
Context {Board Player : Type} `{BoardAPI Board Player}.

(** [custom_score]: [no_reflect_moves] is a Python set, kept here as a
    list without repetitions. *)
Definition custom_score (game : Board) (player : Player) : Score.t :=
  if is_loser game player then NegInf
  else if is_winner game player then PosInf
  else
    let our_moves := legal_moves_of game player in
    let opp_moves := legal_moves_of game (get_opponent game player) in
    let no_reflect_moves :=
      fold_left (fun acc move =>
        let reflect_pt :=
          (width game - 1 - fst move, height game - 1 - snd move) in
        if negb (move_in reflect_pt opp_moves)
        then ListSet.set_add Move_eq_dec move acc
        else acc) our_moves (ListSet.empty_set Move) in
    Fin (inject_Z (Z.of_nat (length no_reflect_moves) ^ 2
                   - Z.of_nat (length opp_moves))).

(** [custom_score_2]; the float arithmetic is done on rationals. *)
Definition custom_score_2 (game : Board) (player : Player) : Score.t :=
  if is_loser game player then NegInf
  else if is_winner game player then PosInf
  else
    let our_moves := legal_moves_of game player in
    Fin (fold_left (fun score move =>
           let width_distance :=
             Qpy_max (1 # 100) (inject_Z (width game / 2 - snd move)) in
           let height_distance :=
             Qpy_max (1 # 100) (inject_Z (height game / 2 - fst move)) in
           (score + (1 / width_distance + 1 / height_distance))%Q)
         our_moves 0%Q).

(** [custom_score_3] *)
Definition custom_score_3 (game : Board) (player : Player) : Score.t :=
  if is_loser game player then NegInf
  else if is_winner game player then PosInf
  else
    let opp_moves := legal_moves_of game (get_opponent game player) in
    Fin (100 / Qpy_max (1 # 10000)
                 (inject_Z (Z.of_nat (length opp_moves))))%Q.

(** ** What the specification says of the evaluators and the opening *)

(** The point reflection of cell [(r, c)] through the centre of a board
    of [height] rows and [width] columns. *)
Definition point_reflection (game : Board) (cell : Move) : Move :=
  (height game - 1 - fst cell, width game - 1 - snd cell).

(** The asymmetric-mobility score as the specification words it: the
    number of the player's legal moves whose point reflection is not a
    legal move of the opponent, squared, minus the number of legal moves
    of the opponent. *)
Definition asymmetric_mobility_spec (game : Board) (player : Player) : Z :=
  let opp_moves := legal_moves_of game (get_opponent game player) in
  let unmatched :=
    filter (fun move => negb (move_in (point_reflection game move) opp_moves))
           (legal_moves_of game player) in
  Z.of_nat (length unmatched) ^ 2 - Z.of_nat (length opp_moves).

(** The centre cell (centre row, centre column) and the four corners. *)
Definition board_center (game : Board) : Move :=
  (height game / 2, width game / 2).

Definition corners (game : Board) : list Move :=
  [ (0, 0); (0, width game - 1);
    (height game - 1, 0); (height game - 1, width game - 1) ].

End Evaluators.

(** The choice the root loop of [alphabeta] makes among scored moves. *)
Fixpoint root_choice (scored : list (Move * Score.t))
    (best_score : Score.t) (best_move : Move) : Score.t * Move :=
  match scored with
  | [] => (best_score, best_move)
  | (m, s) :: rest =>
      if Score.ltb best_score s then root_choice rest s m
      else root_choice rest best_score best_move
  end.

(* ================================================================== *)
(** * The values the searches compute when no timeout strikes          *)
(* ================================================================== *)

(** The same functions with the clock, the log and the exceptions erased
    and the depth counted down as a natural number.  They are linked to
    the code above by [MinimaxRuns] and [AlphaBetaRuns] below. *)
Module Value.
Section Pure.
Context {Board Player : Type} `{BoardAPI Board Player}.
Variable self : IsolationPlayer Board Player.

Definition leaf (game : Board) : Score.t := score self game (self_id self).

Fixpoint minimax_min (n : nat) (game : Board) {struct n} : Score.t :=
  if is_empty (get_legal_moves game) then PosInf
  else
    match n with
    | O => leaf game
    | S n' =>
        fold_left (fun v m =>
          Score.min v (minimax_max n' (forecast_move game m)))
          (get_legal_moves game) PosInf
    end

with minimax_max (n : nat) (game : Board) {struct n} : Score.t :=
  if is_empty (get_legal_moves game) then NegInf
  else
    match n with
    | O => leaf game
    | S n' =>
        fold_left (fun v m =>
          Score.max v (minimax_min n' (forecast_move game m)))
          (get_legal_moves game) NegInf
    end.

Fixpoint best_by_key (key : Move -> Score.t) (items : list Move)
    (best : Move) (best_key : Score.t) : Move * Score.t :=
  match items with
  | [] => (best, best_key)
  | m :: rest =>
      if Score.ltb best_key (key m) then best_by_key key rest m (key m)
      else best_by_key key rest best best_key
  end.

(** The root of [minimax] at depth [S n], for a state with the legal
    moves [m :: rest]. *)
Definition minimax_root (n : nat) (game : Board) (m : Move)
    (rest : list Move) : Move * Score.t :=
  let key := fun m => minimax_min n (forecast_move game m) in
  best_by_key key rest m (key m).

Fixpoint min_scan (child : Board -> Score.t -> Score.t -> Score.t)
    (game : Board) (moves : list Move) (score alpha beta : Score.t)
    : Score.t :=
  match moves with
  | [] => score
  | move :: rest =>
      let score :=
        Score.min score (child (forecast_move game move) alpha beta) in
      if Score.leb score alpha then score
      else min_scan child game rest score alpha (Score.min beta score)
  end.

Fixpoint max_scan (child : Board -> Score.t -> Score.t -> Score.t)
    (game : Board) (moves : list Move) (score alpha beta : Score.t)
    : Score.t :=
  match moves with
  | [] => score
  | move :: rest =>
      let score :=
        Score.max score (child (forecast_move game move) alpha beta) in
      if Score.leb beta score then score
      else max_scan child game rest score (Score.max alpha score) beta
  end.

Fixpoint alphabeta_min (n : nat) (game : Board) (alpha beta : Score.t)
    {struct n} : Score.t :=
  match n with
  | O => leaf game
  | S n' =>
      if is_empty (get_legal_moves game) then PosInf
      else min_scan (alphabeta_max n') game (get_legal_moves game)
             PosInf alpha beta
  end

with alphabeta_max (n : nat) (game : Board) (alpha beta : Score.t)
    {struct n} : Score.t :=
  match n with
  | O => leaf game
  | S n' =>
      if is_empty (get_legal_moves game) then NegInf
      else max_scan (alphabeta_min n') game (get_legal_moves game)
             NegInf alpha beta
  end.

(** The root loop of [alphabeta] at depth [S n]. *)
Fixpoint alphabeta_root (n : nat) (game : Board) (moves : list Move)
    (alpha beta best_score : Score.t) (best_move : Move)
    : Score.t * Move :=
  match moves with
  | [] => (best_score, best_move)
  | move :: rest =>
      let score := alphabeta_min n (forecast_move game move) alpha beta in
      let alpha := Score.max alpha score in
      if Score.ltb best_score score
      then alphabeta_root n game rest alpha beta score move
      else alphabeta_root n game rest alpha beta best_score best_move
  end.

(** The states of the search tree below [root], each with the kind of
    its node: [true] where the agent is to move (a MAX node), [false]
    where its opponent is (a MIN node). *)
Inductive reach (root : Board) : bool -> Board -> Prop :=
| reach_root : reach root true root
| reach_step (kind : bool) (game : Board) (m : Move) :
    reach root kind game ->
    In m (get_legal_moves game) ->
    reach root (negb kind) (forecast_move game m).

(** The terminal contract of an evaluator, on the search tree below
    [root]: a state whose mover has no legal move is scored [-inf] when
    the agent is the one to move and [+inf] when its opponent is. *)
Definition decisive_at_terminals (root : Board) : Prop :=
  forall kind game,
    reach root kind game ->
    get_legal_moves game = [] ->
    Score.eq (leaf game) (if kind then NegInf else PosInf).

End Pure.
End Value.

(* ================================================================== *)
(** * A board given by its game tree, for concrete runs                *)
(* ================================================================== *)

(** A position lists the legal moves of the player to move, each with
    the position it leads to, and the legal moves of the other player.
    Players are [true] and [false]. *)
#[warnings="-register-all"]
Inductive Position : Type :=
| Posn (w h count : Z) (mover : bool)
      (moves : list (Move * Position)) (opp_moves : list Move).

Definition pos_moves (p : Position) : list (Move * Position) :=
  match p with Posn _ _ _ _ moves _ => moves end.

Definition pos_mover (p : Position) : bool :=
  match p with Posn _ _ _ mover _ _ => mover end.

Fixpoint pos_lookup (m : Move) (moves : list (Move * Position))
    (default : Position) : Position :=
  match moves with
  | [] => default
  | (m', p) :: rest => if move_eqb m m' then p else pos_lookup m rest default
  end.

#[global] Instance PositionAPI : BoardAPI Position bool := {
  width := fun p => match p with Posn w _ _ _ _ _ => w end;
  height := fun p => match p with Posn _ h _ _ _ _ => h end;
  move_count := fun p => match p with Posn _ _ count _ _ _ => count end;
  active_player := pos_mover;
  get_opponent := fun _ player => negb player;
  legal_moves_of := fun p player =>
    match p with
    | Posn _ _ _ mover moves opp_moves =>
        if Bool.eqb player mover then map fst moves else opp_moves
    end;
  forecast_move := fun p m => pos_lookup m (pos_moves p) p;
  is_loser := fun p player =>
    Bool.eqb player (pos_mover p) && is_empty (pos_moves p);
  is_winner := fun p player =>
    negb (Bool.eqb player (pos_mover p)) && is_empty (pos_moves p)
}.

(** A clock that never runs out and one that has run out from the start,
    against the default [timeout=10.]. *)
Definition plenty_of_time : nat -> Q := fun _ => 1000%Q.
Definition out_of_time : nat -> Q := fun _ => 0%Q.

Definition start : world Position := World 0 [].

(* ================================================================== *)
(** * The order on scores                                              *)
(* ================================================================== *)

Module ScoreProps.
Import Score.

Lemma leb_le a b : leb a b = true <-> le a b.
Proof.
  destruct a, b; simpl; try tauto; try (split; [discriminate | tauto]).
  apply Qle_bool_iff.
Qed.

Lemma ltb_lt a b : ltb a b = true <-> lt a b.
Proof.
  unfold ltb. destruct a, b; simpl; try tauto;
    try (split; [discriminate | tauto]).
  rewrite negb_true_iff. split; intros H.
  - apply Qnot_le_lt. intros Hle. apply Qle_bool_iff in Hle. congruence.
  - destruct (Qle_bool q0 q) eqn:E; [|reflexivity].
    apply Qle_bool_iff in E. exfalso. exact (Qlt_not_le _ _ H E).
Qed.

Lemma leb_nle a b : leb a b = false <-> lt b a.
Proof.
  rewrite <- ltb_lt. unfold ltb. destruct (leb a b); simpl; split; congruence.
Qed.

Lemma ltb_nlt a b : ltb a b = false <-> le b a.
Proof.
  rewrite <- leb_le. unfold ltb. destruct (leb b a); simpl; split; congruence.
Qed.

#[global] Instance eq_equiv : Equivalence eq.
Proof.
  split.
  - intros [|x|]; simpl; auto. reflexivity.
  - intros [|x|] [|y|]; simpl; auto. intros H; symmetry; exact H.
  - intros [|x|] [|y|] [|z|]; simpl; auto; try tauto.
    intros H1 H2; transitivity y; assumption.
Qed.

#[global] Instance lt_strorder : StrictOrder lt.
Proof.
  split.
  - intros [|x|]; unfold complement; simpl; auto. apply Qlt_irrefl.
  - intros [|x|] [|y|] [|z|]; simpl; auto; try tauto.
    apply Qlt_trans.
Qed.

#[global] Instance lt_compat : Proper (eq ==> eq ==> iff) lt.
Proof.
  intros [|x|] [|x'|] Hx [|y|] [|y'|] Hy; simpl in *; try tauto.
  rewrite Hx, Hy. tauto.
Qed.

Lemma le_lteq a b : le a b <-> lt a b \/ eq a b.
Proof.
  destruct a, b; simpl; try tauto. apply Qle_lteq.
Qed.

Lemma lt_total a b : lt a b \/ eq a b \/ lt b a.
Proof.
  destruct a, b; simpl; try tauto.
  destruct (Q_dec q q0) as [[H|H]|H]; auto.
Qed.

End ScoreProps.

Module ScoreTac := !MakeOrderTac Score ScoreProps.

(** Turns the boolean tests of the code into order facts. *)
Ltac score_bools :=
  repeat match goal with
    | H : Score.leb _ _ = true |- _ => apply ScoreProps.leb_le in H
    | H : Score.leb _ _ = false |- _ => apply ScoreProps.leb_nle in H
    | H : Score.ltb _ _ = true |- _ => apply ScoreProps.ltb_lt in H
    | H : Score.ltb _ _ = false |- _ => apply ScoreProps.ltb_nlt in H
    end.

Ltac score_order := score_bools; ScoreTac.order.

Section ScoreFacts.
Local Open Scope score_scope.

Lemma neginf_le a : NegInf <= a.
Proof. destruct a; exact I. Qed.

Lemma le_posinf a : a <= PosInf.
Proof. destruct a; exact I. Qed.

Lemma max_cases a b :
  (a < b /\ Score.max a b = b) \/ (b <= a /\ Score.max a b = a).
Proof.
  unfold Score.max. destruct (Score.ltb a b) eqn:E; score_bools; auto.
Qed.

Lemma min_cases a b :
  (b < a /\ Score.min a b = b) \/ (a <= b /\ Score.min a b = a).
Proof.
  unfold Score.min. destruct (Score.ltb b a) eqn:E; score_bools; auto.
Qed.

End ScoreFacts.

(* ================================================================== *)
(** * Positions used in the concrete runs                              *)
(* ================================================================== *)

(** A position in which the player to move is blocked. *)
Definition blocked (mover : bool) : Position :=
  Posn 7 7 12 mover [] [(0, 0)].

(** A position with a single legal move, after which the opponent is
    blocked. *)
Definition one_move : Position :=
  Posn 7 7 11 true [((2, 3), blocked false)] [(0, 0)].

(** The stock agent: [search_depth=3, score_fn=custom_score, timeout=10.],
    playing as [true]. *)
Definition stock_agent : IsolationPlayer Position bool :=
  new_player 3 custom_score 10 true.

(** An agent whose evaluator ignores the board. *)
Definition flat_agent : IsolationPlayer Position bool :=
  new_player 3 (fun _ _ => Fin 0) 10 true.

(** All cells of a board with [w] columns and [h] rows, row by row. *)
Definition cells (w h : Z) : list Move :=
  flat_map (fun r => map (fun c => (Z.of_nat r, Z.of_nat c))
                         (seq 0 (Z.to_nat w)))
           (seq 0 (Z.to_nat h)).

(** The board before the first move: every cell is a legal move. *)
Definition empty_board (w h : Z) : Position :=
  Posn w h 0 true (map (fun m => (m, blocked false)) (cells w h)) (cells w h).

(** A 7x7 position in which the only legal move of player [true] is [m]. *)
Definition only (m : Move) : Position :=
  Posn 7 7 10 true [(m, blocked false)] [(0, 1)].

(** A board of 3 columns and 5 rows: player [true] stands on (0, 0) and
    can jump to (1, 2) and (2, 1), player [false] stands on (4, 2) and can
    jump to (3, 0) and (2, 1). *)
Definition tall : Position :=
  Posn 3 5 2 true [((1, 2), blocked false); ((2, 1), blocked false)]
       [(3, 0); (2, 1)].

(** Two legal moves; after either the opponent can still move.  The
    positions reached have the move counts 1 and 2. *)
Definition fork : Position :=
  Posn 7 7 0 true
    [ ((0, 0), Posn 7 7 1 false [((5, 5), blocked true)] []);
      ((0, 1), Posn 7 7 2 false [((5, 5), blocked true)] []) ]
    [].

(** An agent whose evaluator returns the move count of the board. *)
Definition counting_agent : IsolationPlayer Position bool :=
  new_player 3 (fun game _ => Fin (inject_Z (move_count game))) 10 true.

(** A position in which player [false] has one legal move, which leaves
    player [true] blocked. *)
Definition cornered : Position :=
  Posn 7 7 21 false [((4, 4), blocked true)] [(1, 1)].

(** A position with one legal move, which leads to [cornered]. *)
Definition doomed : Position :=
  Posn 7 7 20 true [((1, 1), cornered)] [(4, 4)].

(** A position with two legal moves: the first leads to [cornered], the
    second blocks the opponent. *)
Definition crossroads : Position :=
  Posn 7 7 20 true [((1, 1), cornered); ((2, 3), blocked false)] [(4, 4)].

(** A clock that is in time for its first four readings only. *)
Definition four_readings : nat -> Q :=
  fun n => if (n <? 4)%nat then 1000%Q else 0%Q.

(* ================================================================== *)
(** * The timeout guard and the top-level boundary                     *)
(* ================================================================== *)

Ltac unfold_run :=
  unfold MinimaxPlayer.get_move, MinimaxPlayer.minimax,
    MinimaxPlayer.minimax_search, MinimaxPlayer.terminal_test,
    AlphaBetaPlayer.alphabeta, AlphaBetaPlayer.alphabeta_search,
    py_max, evaluate, forecast, time_check, log,
    try_timeout, bind, ret, raise, out_of_fuel.

Section Guard.
Context {Board Player : Type} `{BoardAPI Board Player}.
Variable self : IsolationPlayer Board Player.
Variable time_left : nat -> Q.

(** The clock reading that the next call of [time_left] returns is
    below the threshold. *)
Definition late (w : world Board) : Prop :=
  Qltb (time_left (clock w)) (TIMER_THRESHOLD self) = true.

Definition ticked (w : world Board) : world Board :=
  World (S (clock w)) (calls w).

Lemma time_check_late w :
  late w -> time_check self time_left w = (Raise SearchTimeout, ticked w).
Proof. unfold time_check, late. intros ->. reflexivity. Qed.

Lemma time_check_in_time w :
  ~ late w -> time_check self time_left w = (Ret tt, ticked w).
Proof.
  unfold time_check, late. intros Hl.
  destruct (Qltb _ _); [congruence | reflexivity].
Qed.

(** [min_value] and [max_value] of both players check the clock before
    anything else: when it is late they raise [SearchTimeout] and the
    call log is as it was. *)
Lemma minimax_min_value_guard fuel game depth w :
  late w ->
  MinimaxPlayer.min_value self time_left (S fuel) game depth w
  = (Raise SearchTimeout, ticked w).
Proof.
  intros Hl. simpl. unfold_run. rewrite Hl. reflexivity.
Qed.

Lemma minimax_max_value_guard fuel game depth w :
  late w ->
  MinimaxPlayer.max_value self time_left (S fuel) game depth w
  = (Raise SearchTimeout, ticked w).
Proof.
  intros Hl. simpl. unfold_run. rewrite Hl. reflexivity.
Qed.

Lemma alphabeta_min_value_guard fuel game depth alpha beta w :
  late w ->
  AlphaBetaPlayer.min_value self time_left (S fuel) game depth alpha beta w
  = (Raise SearchTimeout, ticked w).
Proof.
  intros Hl. simpl. unfold_run. rewrite Hl. reflexivity.
Qed.

Lemma alphabeta_max_value_guard fuel game depth alpha beta w :
  late w ->
  AlphaBetaPlayer.max_value self time_left (S fuel) game depth alpha beta w
  = (Raise SearchTimeout, ticked w).
Proof.
  intros Hl. simpl. unfold_run. rewrite Hl. reflexivity.
Qed.

(** So does [alphabeta]: nothing but its own entry is logged. *)
Lemma alphabeta_guard fuel game depth alpha beta w :
  late w ->
  AlphaBetaPlayer.alphabeta self time_left fuel game depth alpha beta w
  = (Raise SearchTimeout,
     World (S (clock w)) (AlphabetaCall game depth :: calls w)).
Proof.
  intros Hl. unfold_run. simpl. unfold late in Hl. simpl.
  rewrite Hl. reflexivity.
Qed.

(** [AlphaBetaPlayer.get_move] never ends in [SearchTimeout]. *)
Lemma deepening_no_timeout_escapes fuel :
  forall game depth best w,
    fst (AlphaBetaPlayer.deepening self time_left fuel game depth best w)
    <> Raise SearchTimeout.
Proof.
  induction fuel as [|fuel IH]; intros game depth best w; simpl.
  - discriminate.
  - unfold try_timeout.
    destruct (AlphaBetaPlayer.alphabeta _ _ _ _ _ _ _ w) as [[m|[]|] w'];
      simpl; try discriminate.
    apply IH.
Qed.

Lemma alphabeta_get_move_no_timeout_escapes fuel game w :
  fst (AlphaBetaPlayer.get_move self time_left fuel game w)
  <> Raise SearchTimeout.
Proof.
  unfold AlphaBetaPlayer.get_move.
  destruct (AlphaBetaPlayer.opening_move game).
  - discriminate.
  - apply deepening_no_timeout_escapes.
Qed.

(** C1 (as the code behaves): [MinimaxPlayer.get_move] runs
    [terminal_test], and with it the clock check, before it enters its
    [try] block.  When the clock is already below the threshold at
    entry, [SearchTimeout] reaches the caller of [get_move]. *)
Theorem minimax_get_move_leaks_timeout fuel game w :
  late w ->
  MinimaxPlayer.get_move self time_left fuel game w
  = (Raise SearchTimeout, ticked w).
Proof.
  intros Hl. unfold_run. rewrite Hl. reflexivity.
Qed.

(** C4 (as the code behaves): on a state without legal moves [minimax]
    hands an empty sequence to [max] and ends in [ValueError]; no
    sentinel is returned, at any depth and whatever the clock says. *)
Theorem minimax_no_moves_value_error fuel game depth w :
  get_legal_moves game = [] ->
  MinimaxPlayer.minimax self time_left fuel game depth w
  = (Raise ValueError, w).
Proof.
  intros Hnil. unfold_run. rewrite Hnil. reflexivity.
Qed.

(** C9 (as the code behaves): [MinimaxPlayer.minimax] has no clock check
    of its own.  With the clock already below the threshold it still
    forecasts the first legal move; the timeout is raised only inside
    [min_value]. *)
Theorem minimax_forecasts_before_guard fuel game depth m rest w :
  get_legal_moves game = m :: rest ->
  late w ->
  MinimaxPlayer.minimax self time_left (S fuel) game depth w
  = (Raise SearchTimeout,
     World (S (clock w)) (ForecastCall game m :: calls w)).
Proof.
  intros Hm Hl. unfold MinimaxPlayer.minimax, MinimaxPlayer.minimax_search.
  rewrite Hm. unfold py_max, forecast, log, bind, ret.
  rewrite minimax_min_value_guard by exact Hl. reflexivity.
Qed.

End Guard.

Lemma minimax_get_move_leaks_timeout_witness :
  late stock_agent out_of_time start /\
  MinimaxPlayer.get_move stock_agent out_of_time 5 one_move start
  = (Raise SearchTimeout, World 1 []).
Proof.
  split; [reflexivity |].
  apply (minimax_get_move_leaks_timeout stock_agent out_of_time 5 one_move start).
  reflexivity.
Defined.

Lemma minimax_no_moves_value_error_witness :
  get_legal_moves (blocked true) = [] /\
  MinimaxPlayer.minimax stock_agent plenty_of_time 5 (blocked true) 3 start
  = (Raise ValueError, start).
Proof.
  split; [reflexivity |].
  apply (minimax_no_moves_value_error stock_agent plenty_of_time 5
           (blocked true) 3 start).
  reflexivity.
Defined.

Lemma minimax_forecasts_before_guard_witness :
  get_legal_moves one_move = [(2, 3)] /\
  late stock_agent out_of_time start /\
  MinimaxPlayer.minimax stock_agent out_of_time 5 one_move 3 start
  = (Raise SearchTimeout, World 1 [ForecastCall one_move (2, 3)]).
Proof.
  split; [reflexivity |]. split; [reflexivity |].
  apply (minimax_forecasts_before_guard stock_agent out_of_time 4 one_move 3
           (2, 3) [] start); reflexivity.
Defined.

(* ================================================================== *)
(** * Immobile states inside the alpha-beta kernel                     *)
(* ================================================================== *)

(** C5 (counterexample): at depth 0 [min_value] asks the evaluator about a
    state whose mover has no legal move. *)
Lemma alphabeta_min_value_depth0_calls_evaluator :
  get_legal_moves (blocked false) = [] /\
  In (ScoreCall (blocked false))
     (calls (snd (AlphaBetaPlayer.min_value stock_agent plenty_of_time 5
                    (blocked false) 0 NegInf PosInf start))).
Proof. split; [reflexivity | left; reflexivity]. Qed.

Section Immobile.
Context {Board Player : Type} `{BoardAPI Board Player}.
Variable self : IsolationPlayer Board Player.
Variable time_left : nat -> Q.

(** C5 (amended): for a state whose mover has no legal move and a depth
    other than 0, once the clock check at entry has passed, [min_value]
    returns [+inf] and [max_value] returns [-inf]; the only change to the
    world is the clock reading, so the evaluator is not called. *)
Theorem alphabeta_no_moves_decisive fuel game depth alpha beta w :
  get_legal_moves game = [] ->
  depth <> 0 ->
  ~ late self time_left w ->
  AlphaBetaPlayer.min_value self time_left (S fuel) game depth alpha beta w
  = (Ret PosInf, ticked w)
  /\ AlphaBetaPlayer.max_value self time_left (S fuel) game depth alpha beta w
     = (Ret NegInf, ticked w).
Proof.
  intros Hnil Hd Hl. apply Z.eqb_neq in Hd.
  split; simpl; unfold bind;
    rewrite (time_check_in_time self time_left w Hl), Hd, Hnil; reflexivity.
Qed.

(** At depth 0 the evaluator decides, whatever the legal moves are. *)
Lemma alphabeta_min_value_depth0 fuel game alpha beta w :
  ~ late self time_left w ->
  AlphaBetaPlayer.min_value self time_left (S fuel) game 0 alpha beta w
  = (Ret (score self game (self_id self)),
     World (S (clock w)) (ScoreCall game :: calls w)).
Proof.
  intros Hl. simpl. unfold bind.
  rewrite (time_check_in_time self time_left w Hl). reflexivity.
Qed.

End Immobile.

Lemma alphabeta_no_moves_decisive_witness :
  get_legal_moves (blocked false) = [] /\
  AlphaBetaPlayer.min_value stock_agent plenty_of_time 5
    (blocked false) 2 NegInf PosInf start = (Ret PosInf, World 1 [])
  /\ AlphaBetaPlayer.max_value stock_agent plenty_of_time 5
       (blocked false) 2 NegInf PosInf start = (Ret NegInf, World 1 []).
Proof.
  split; [reflexivity |].
  apply (alphabeta_no_moves_decisive stock_agent plenty_of_time 4
           (blocked false) 2 NegInf PosInf start).
  - reflexivity.
  - discriminate.
  - unfold late; simpl; discriminate.
Defined.

(* ================================================================== *)
(** * The opening rule                                                 *)
(* ================================================================== *)

(** C6 (as the code behaves): the cell the opening rule looks for is
    [(width // 2, height // 2)], with the two dimensions the other way
    round than in the centre [(height // 2, width // 2)].  On the empty
    board of 9 columns and 7 rows the centre (3, 4) is a legal move, and
    [get_move] returns (4, 3). *)
Theorem opening_rule_off_center_9x7 :
  move_count (empty_board 9 7) = 0 /\
  move_in (board_center (empty_board 9 7))
          (get_legal_moves (empty_board 9 7)) = true /\
  board_center (empty_board 9 7) = (3, 4) /\
  AlphaBetaPlayer.get_move stock_agent plenty_of_time 5 (empty_board 9 7) start
  = (Ret (4, 3), start).
Proof. repeat split; vm_compute; reflexivity. Qed.

Section Opening.
Context {Board Player : Type} `{BoardAPI Board Player}.
Variable self : IsolationPlayer Board Player.
Variable time_left : nat -> Q.

(** X14: where [width // 2 = height // 2], as on every square board,
    the rule does take the centre, and the world is left as it was: no
    clock reading, no search, no evaluation. *)
Lemma opening_rule_takes_center fuel game w :
  move_count game = 0 \/ move_count game = 1 ->
  width game / 2 = height game / 2 ->
  move_in (board_center game) (get_legal_moves game) = true ->
  AlphaBetaPlayer.get_move self time_left fuel game w
  = (Ret (board_center game), w).
Proof.
  intros Hc Hsq Hin.
  unfold AlphaBetaPlayer.get_move, AlphaBetaPlayer.opening_move.
  unfold board_center, get_legal_moves in *.
  replace ((move_count game =? 0) || (move_count game =? 1)) with true
    by (destruct Hc as [-> | ->]; reflexivity).
  set (a := width game / 2) in *. set (b := height game / 2) in *.
  clearbody a b. subst a.
  cbv zeta. rewrite Hin. reflexivity.
Qed.

End Opening.

(* ================================================================== *)
(** * The evaluators                                                   *)
(* ================================================================== *)

(** C7 (as the code behaves): the distances in [custom_score_2] are signed
    and cut off at 0.01 from below, so a move below and to the right of
    the centre counts as much as the centre itself.  On the 7x7 board the
    state whose only legal move is the corner (6, 6) scores 200, the same
    as the state whose only legal move is the centre (3, 3). *)
Theorem center_affinity_far_corner_ties :
  board_center (only (3, 3)) = (3, 3) /\
  In (6, 6) (corners (only (3, 3))) /\
  custom_score_2 (only (3, 3)) true = Fin 200 /\
  custom_score_2 (only (6, 6)) true = Fin 200.
Proof. repeat split; vm_compute; auto. Qed.

(** The other three corners do score lower than the centre. *)
Lemma center_affinity_other_corners :
  Forall (fun c => Score.lt (custom_score_2 (only c) true)
                            (custom_score_2 (only (3, 3)) true))
         [(0, 0); (0, 6); (6, 0)].
Proof. repeat constructor. Qed.

(** C8 (as the code behaves): [custom_score] reflects move [(r, c)] to
    [(width - 1 - r, height - 1 - c)].  On the board of 3 columns and 5
    rows both moves of the player are mirrored by moves of the opponent,
    so the score by the specification is 0 - 2; the code finds neither
    move matched and returns 4 - 2. *)
Theorem asymmetric_mobility_off_on_3x5 :
  point_reflection tall (1, 2) = (3, 0) /\
  point_reflection tall (2, 1) = (2, 1) /\
  asymmetric_mobility_spec tall true = -2 /\
  custom_score tall true = Fin 2.
Proof. repeat split. Qed.

Section EvaluatorFacts.
Context {Board Player : Type} `{BoardAPI Board Player}.

Lemma Qpy_max_floor z : z <= 0 -> Qpy_max (1 # 100) (inject_Z z) = (1 # 100)%Q.
Proof.
  intros Hz. unfold Qpy_max, Qltb, Qle_bool. simpl.
  replace (z * 100 <=? 1) with true; [reflexivity |].
  symmetry. apply Z.leb_le. lia.
Qed.

(** On any board of at least two rows and two columns the far corner
    ties with the centre. *)
Lemma center_affinity_far_corner (center_state corner_state : Board)
    (player : Player) :
  width corner_state = width center_state ->
  height corner_state = height center_state ->
  2 <= width center_state -> 2 <= height center_state ->
  is_loser center_state player = false ->
  is_winner center_state player = false ->
  is_loser corner_state player = false ->
  is_winner corner_state player = false ->
  legal_moves_of center_state player = [board_center center_state] ->
  legal_moves_of corner_state player
  = [(height corner_state - 1, width corner_state - 1)] ->
  custom_score_2 corner_state player = custom_score_2 center_state player.
Proof.
  intros Hw Hh Hw2 Hh2 L1 W1 L2 W2 M1 M2.
  unfold custom_score_2. rewrite L1, W1, L2, W2, M1, M2, Hw, Hh.
  unfold board_center. simpl.
  rewrite !Z.sub_diag.
  assert (width center_state / 2 < width center_state)
    by (apply Z.div_lt; lia).
  assert (height center_state / 2 < height center_state)
    by (apply Z.div_lt; lia).
  rewrite !Qpy_max_floor by lia. reflexivity.
Qed.

Lemma set_add_length_fresh (m : Move) (acc : list Move) :
  ~ In m acc ->
  length (ListSet.set_add Move_eq_dec m acc) = S (length acc).
Proof.
  induction acc as [|a acc IH]; simpl; intros Hn; [reflexivity |].
  destruct (Move_eq_dec m a) as [->|Hne].
  - exfalso. apply Hn. now left.
  - simpl. rewrite IH; [reflexivity |]. intros Hin. apply Hn. now right.
Qed.

Lemma fold_set_add_length (keep : Move -> bool) (moves : list Move) :
  forall acc,
    NoDup moves ->
    (forall m, In m moves -> ~ In m acc) ->
    length (fold_left (fun acc move =>
              if keep move then ListSet.set_add Move_eq_dec move acc else acc)
              moves acc)
    = (length acc + length (filter keep moves))%nat.
Proof.
  induction moves as [|a moves IH]; intros acc Hnd Hfresh; simpl.
  - lia.
  - inversion Hnd as [|? ? Ha Hnd']; subst.
    destruct (keep a) eqn:Ek.
    + rewrite IH; auto.
      * rewrite set_add_length_fresh by (apply Hfresh; now left).
        simpl. lia.
      * intros m Hm Hin. apply ListSet.set_add_elim in Hin.
        destruct Hin as [-> | Hin]; [contradiction |].
        apply (Hfresh m); [now right | exact Hin].
    + apply IH; auto. intros m Hm. apply Hfresh. now right.
Qed.

(** X13: where the board has as many rows as columns, and the legal
    moves are listed without repetition, [custom_score] is the score of
    the specification. *)
Lemma custom_score_square (game : Board) (player : Player) :
  width game = height game ->
  is_loser game player = false ->
  is_winner game player = false ->
  NoDup (legal_moves_of game player) ->
  custom_score game player
  = Fin (inject_Z (asymmetric_mobility_spec game player)).
Proof.
  intros Hsq Hl Hw Hnd.
  unfold custom_score, asymmetric_mobility_spec, point_reflection.
  rewrite Hl, Hw, Hsq. cbv zeta.
  rewrite (fold_set_add_length
             (fun move => negb (move_in (height game - 1 - fst move,
                                         height game - 1 - snd move)
                                  (legal_moves_of game
                                     (get_opponent game player)))));
    auto.
Qed.

End EvaluatorFacts.

(* ================================================================== *)
(** * Runs without timeout compute the values of [Value]               *)
(* ================================================================== *)

Section Runs.
Context {Board Player : Type} `{BoardAPI Board Player}.
Variable self : IsolationPlayer Board Player.
Variable time_left : nat -> Q.

(** No reading of the clock is below the threshold. *)
Definition never_late : Prop :=
  forall n, Qltb (time_left n) (TIMER_THRESHOLD self) = false.

(** [c] returns [a], from whatever world it is started in. *)
Definition returns {A : Type} (c : M (world Board) A) (a : A) : Prop :=
  forall w, exists w', c w = (Ret a, w').

Lemma returns_ret {A} (a : A) : returns (ret a) a.
Proof. intros w. exists w. reflexivity. Qed.

Lemma returns_bind {A B} (c : M (world Board) A) (k : A -> M (world Board) B)
    (a : A) (b : B) :
  returns c a -> returns (k a) b -> returns (bind c k) b.
Proof.
  intros Hc Hk w. destruct (Hc w) as [w1 E1]. destruct (Hk w1) as [w2 E2].
  exists w2. unfold bind. rewrite E1. exact E2.
Qed.

Lemma returns_forecast game m :
  returns (forecast game m) (forecast_move game m).
Proof. intros w. eexists. reflexivity. Qed.

Lemma returns_evaluate game :
  returns (evaluate self game) (Value.leaf self game).
Proof. intros w. eexists. reflexivity. Qed.

Lemma returns_log e : returns (log e) tt.
Proof. intros w. eexists. reflexivity. Qed.

Hypothesis in_time : never_late.

Lemma returns_time_check : returns (time_check self time_left) tt.
Proof.
  intros w. eexists. unfold time_check. rewrite in_time. reflexivity.
Qed.

Lemma returns_terminal_test game :
  returns (MinimaxPlayer.terminal_test self time_left game)
          (is_empty (get_legal_moves game)).
Proof.
  unfold MinimaxPlayer.terminal_test.
  eapply returns_bind; [apply returns_time_check | apply returns_ret].
Qed.

Lemma returns_for_moves (body : Score.t -> Move -> M (world Board) Score.t)
    (step : Score.t -> Move -> Score.t) (moves : list Move) :
  (forall v m, In m moves -> returns (body v m) (step v m)) ->
  forall v, returns (for_moves moves v body) (fold_left step moves v).
Proof.
  induction moves as [|m rest IH]; intros Hb v; simpl.
  - apply returns_ret.
  - eapply returns_bind.
    + apply Hb. now left.
    + apply IH. intros v' m' Hin. apply Hb. now right.
Qed.

Lemma minimax_min_unfold n game :
  Value.minimax_min self n game
  = if is_empty (get_legal_moves game) then PosInf
    else match n with
         | O => Value.leaf self game
         | S n' =>
             fold_left (fun v m =>
               Score.min v (Value.minimax_max self n' (forecast_move game m)))
               (get_legal_moves game) PosInf
         end.
Proof. destruct n; reflexivity. Qed.

Lemma minimax_max_unfold n game :
  Value.minimax_max self n game
  = if is_empty (get_legal_moves game) then NegInf
    else match n with
         | O => Value.leaf self game
         | S n' =>
             fold_left (fun v m =>
               Score.max v (Value.minimax_min self n' (forecast_move game m)))
               (get_legal_moves game) NegInf
         end.
Proof. destruct n; reflexivity. Qed.

Lemma pred_depth depth :
  0 <= depth -> depth <> 0 -> Z.to_nat depth = S (Z.to_nat (depth - 1)).
Proof. lia. Qed.

(** With fuel above the depth, the minimax kernel returns the minimax
    values. *)
Lemma minimax_kernel_returns fuel :
  forall depth game,
    0 <= depth < Z.of_nat fuel ->
    returns (MinimaxPlayer.min_value self time_left fuel game depth)
            (Value.minimax_min self (Z.to_nat depth) game)
    /\ returns (MinimaxPlayer.max_value self time_left fuel game depth)
               (Value.minimax_max self (Z.to_nat depth) game).
Proof.
  induction fuel as [|fuel IH]; intros depth game Hd; [lia |].
  rewrite minimax_min_unfold, minimax_max_unfold.
  split; simpl;
    (eapply returns_bind; [apply returns_terminal_test |]);
    destruct (is_empty (get_legal_moves game)); try apply returns_ret;
    destruct (depth =? 0) eqn:E.
  - apply Z.eqb_eq in E. subst. apply returns_evaluate.
  - apply Z.eqb_neq in E. rewrite (pred_depth depth) by lia.
    apply returns_for_moves. intros v m _.
    eapply returns_bind; [apply returns_forecast |].
    eapply returns_bind; [apply IH; lia | apply returns_ret].
  - apply Z.eqb_eq in E. subst. apply returns_evaluate.
  - apply Z.eqb_neq in E. rewrite (pred_depth depth) by lia.
    apply returns_for_moves. intros v m _.
    eapply returns_bind; [apply returns_forecast |].
    eapply returns_bind; [apply IH; lia | apply returns_ret].
Qed.

Lemma returns_max_scan (key : Move -> M (world Board) Score.t)
    (key_value : Move -> Score.t) (items : list Move) :
  (forall m, returns (key m) (key_value m)) ->
  forall best best_key,
    returns (max_scan key items best best_key)
            (Value.best_by_key key_value items best best_key).
Proof.
  intros Hk. induction items as [|m rest IH]; intros best best_key; simpl.
  - apply returns_ret.
  - eapply returns_bind; [apply Hk |].
    destruct (Score.ltb best_key (key_value m)); apply IH.
Qed.

(** At depth [d >= 1], on a state with the legal moves [m :: rest],
    [minimax] returns the pure root choice. *)
Lemma minimax_search_returns fuel game depth m rest :
  get_legal_moves game = m :: rest ->
  1 <= depth <= Z.of_nat fuel ->
  returns (MinimaxPlayer.minimax_search self time_left fuel game depth)
          (Value.minimax_root self (Z.to_nat (depth - 1)) game m rest).
Proof.
  intros Hm Hd. unfold MinimaxPlayer.minimax_search, Value.minimax_root.
  rewrite Hm. unfold py_max.
  assert (Hkey : forall m0,
    returns (g' <- forecast game m0;;
             MinimaxPlayer.min_value self time_left fuel g' (depth - 1))
            (Value.minimax_min self (Z.to_nat (depth - 1))
               (forecast_move game m0))).
  { intros m0. eapply returns_bind; [apply returns_forecast |].
    apply minimax_kernel_returns. lia. }
  eapply returns_bind; [apply Hkey |].
  apply (returns_max_scan _ _ rest Hkey).
Qed.

Lemma returns_min_loop
    (child : Board -> Score.t -> Score.t -> M (world Board) Score.t)
    (child_value : Board -> Score.t -> Score.t -> Score.t)
    (game : Board) (moves : list Move) :
  (forall g a b, returns (child g a b) (child_value g a b)) ->
  forall score alpha beta,
    returns (AlphaBetaPlayer.min_loop child game moves score alpha beta)
            (Value.min_scan child_value game moves score alpha beta).
Proof.
  intros Hc. induction moves as [|m rest IH]; intros score alpha beta; simpl.
  - apply returns_ret.
  - eapply returns_bind; [apply returns_forecast |].
    eapply returns_bind; [apply Hc |].
    destruct (Score.leb _ alpha); [apply returns_ret | apply IH].
Qed.

Lemma returns_max_loop
    (child : Board -> Score.t -> Score.t -> M (world Board) Score.t)
    (child_value : Board -> Score.t -> Score.t -> Score.t)
    (game : Board) (moves : list Move) :
  (forall g a b, returns (child g a b) (child_value g a b)) ->
  forall score alpha beta,
    returns (AlphaBetaPlayer.max_loop child game moves score alpha beta)
            (Value.max_scan child_value game moves score alpha beta).
Proof.
  intros Hc. induction moves as [|m rest IH]; intros score alpha beta; simpl.
  - apply returns_ret.
  - eapply returns_bind; [apply returns_forecast |].
    eapply returns_bind; [apply Hc |].
    destruct (Score.leb beta _); [apply returns_ret | apply IH].
Qed.

(** With fuel above the depth, the alpha-beta kernel returns the
    alpha-beta values. *)
Lemma alphabeta_kernel_returns fuel :
  forall depth game alpha beta,
    0 <= depth < Z.of_nat fuel ->
    returns (AlphaBetaPlayer.min_value self time_left fuel game depth
               alpha beta)
            (Value.alphabeta_min self (Z.to_nat depth) game alpha beta)
    /\ returns (AlphaBetaPlayer.max_value self time_left fuel game depth
                  alpha beta)
               (Value.alphabeta_max self (Z.to_nat depth) game alpha beta).
Proof.
  induction fuel as [|fuel IH]; intros depth game alpha beta Hd; [lia |].
  split; simpl;
    (eapply returns_bind; [apply returns_time_check |]);
    destruct (depth =? 0) eqn:E.
  - apply Z.eqb_eq in E. subst. apply returns_evaluate.
  - apply Z.eqb_neq in E. rewrite (pred_depth depth) by lia. simpl.
    destruct (is_empty (get_legal_moves game)); [apply returns_ret |].
    apply returns_min_loop. intros g a b. apply IH. lia.
  - apply Z.eqb_eq in E. subst. apply returns_evaluate.
  - apply Z.eqb_neq in E. rewrite (pred_depth depth) by lia. simpl.
    destruct (is_empty (get_legal_moves game)); [apply returns_ret |].
    apply returns_max_loop. intros g a b. apply IH. lia.
Qed.

Lemma returns_root_loop fuel game depth :
  1 <= depth <= Z.of_nat fuel ->
  forall moves alpha beta best_score best_move,
    returns (AlphaBetaPlayer.root_loop self time_left fuel game depth moves
               alpha beta best_score best_move)
            (Value.alphabeta_root self (Z.to_nat (depth - 1)) game moves
               alpha beta best_score best_move).
Proof.
  intros Hd. induction moves as [|m rest IH];
    intros alpha beta best_score best_move; simpl.
  - apply returns_ret.
  - eapply returns_bind; [apply returns_forecast |].
    eapply returns_bind; [apply alphabeta_kernel_returns; lia |].
    destruct (Score.ltb best_score _); apply IH.
Qed.

(** At depth [d >= 1], [alphabeta] returns the pure root choice. *)
Lemma alphabeta_search_returns fuel game depth alpha beta :
  get_legal_moves game <> [] ->
  1 <= depth <= Z.of_nat fuel ->
  returns (AlphaBetaPlayer.alphabeta_search self time_left fuel game depth
             alpha beta)
          (Value.alphabeta_root self (Z.to_nat (depth - 1)) game
             (get_legal_moves game) alpha beta NegInf NO_MOVE).
Proof.
  intros Hm Hd. unfold AlphaBetaPlayer.alphabeta_search.
  eapply returns_bind; [apply returns_log |].
  eapply returns_bind; [apply returns_time_check |].
  destruct (get_legal_moves game) eqn:E; [congruence |]. simpl is_empty.
  cbv iota. apply returns_root_loop. exact Hd.
Qed.

End Runs.

(* ================================================================== *)
(** * Pruning does not change the value                                *)
(* ================================================================== *)

Section OrderCases.
Local Open Scope score_scope.

Lemma le_or_gt a b : a <= b \/ b < a.
Proof.
  destruct (ScoreProps.lt_total a b) as [Hlt | [Heq | Hgt]];
    [left | left | right]; ScoreTac.order.
Qed.

Lemma lt_or_ge a b : a < b \/ b <= a.
Proof. destruct (le_or_gt b a); auto. Qed.

Lemma max_neginf a : Score.max NegInf a = a.
Proof. destruct a; reflexivity. Qed.

End OrderCases.

(** Case analysis on every test the order facts at hand depend on,
    followed by the order tactic. *)
Ltac use_premise H a b le_case gt_case :=
  first
    [ let X := fresh in
      assert (X : le_case) by ScoreTac.order; specialize (H X); clear X
    | let X := fresh in
      assert (X : gt_case) by ScoreTac.order; clear H X
    | let X := fresh in
      assert (X : le_case \/ gt_case)
        by (first [apply le_or_gt | apply lt_or_ge]);
      destruct X as [X | X]; [specialize (H X) | clear H] ].

Ltac score_cases :=
  repeat match goal with
    | H : _ /\ _ |- _ => destruct H
    | |- _ /\ _ => split
    | |- _ -> _ => intro
    end;
  repeat match goal with
    | H : _ /\ _ |- _ => destruct H
    | H : _ \/ _ |- _ => destruct H
    | H : Score.le ?a ?b -> _ |- _ =>
        use_premise H a b (Score.le a b) (Score.lt b a)
    | H : Score.lt ?a ?b -> _ |- _ =>
        use_premise H a b (Score.lt a b) (Score.le b a)
    end;
  try solve [ScoreTac.order
            | left; ScoreTac.order
            | right; ScoreTac.order].

(** Replaces the first [Score.min] or [Score.max] of the goal by the
    argument it selects. *)
Ltac pick_min_max :=
  match goal with
  | |- context [Score.min ?x ?y] =>
      let E := fresh in
      destruct (min_cases x y) as [[? E] | [? E]]; rewrite E; clear E
  | |- context [Score.max ?x ?y] =>
      let E := fresh in
      destruct (max_cases x y) as [[? E] | [? E]]; rewrite E; clear E
  end.

Section Windows.
Local Open Scope score_scope.

(** What a fail-soft search with window [(alpha, beta)] promises about its
    result [r], given the true value [v]: at or below [alpha] it is an
    upper bound, at or above [beta] a lower bound, in between exact. *)
Definition within (alpha beta r v : Score.t) : Prop :=
  (r <= alpha -> v <= r) /\
  (beta <= r -> r <= v) /\
  (alpha < r -> r < beta -> r == v).

Lemma within_eq alpha beta r v : r == v -> within alpha beta r v.
Proof. unfold within. score_cases. Qed.

(** The state of the loop of a MIN node: [s] is the score so far, [t] the
    true minimum so far, [b] the current [beta], [beta0] the [beta] the
    node was entered with. *)
Definition min_inv (alpha beta0 s t b : Score.t) : Prop :=
  (beta0 <= s -> s <= t) /\ (s < beta0 -> s == t) /\
  alpha < s /\ b <= beta0 /\ b <= s /\ (beta0 <= b \/ s <= b).

Lemma min_inv_start alpha beta : alpha < beta -> min_inv alpha beta PosInf PosInf beta.
Proof.
  intros Hab. pose proof (le_posinf beta). unfold min_inv. score_cases.
Qed.

Lemma min_inv_window {alpha beta0 s t b} :
  alpha < beta0 -> min_inv alpha beta0 s t b -> alpha < b.
Proof. unfold min_inv. score_cases. Qed.

Lemma min_inv_end {alpha beta0 s t b} :
  min_inv alpha beta0 s t b -> within alpha beta0 s t.
Proof. unfold min_inv, within. score_cases. Qed.

Lemma min_inv_cut alpha beta0 s t b c w V :
  alpha < beta0 -> min_inv alpha beta0 s t b -> within alpha b c w ->
  Score.min s c <= alpha -> V <= Score.min t w ->
  within alpha beta0 (Score.min s c) V.
Proof.
  unfold min_inv, within. intros Hab Hi Hc.
  do 2 pick_min_max; score_cases.
Qed.

Lemma min_inv_step alpha beta0 s t b c w :
  alpha < beta0 -> min_inv alpha beta0 s t b -> within alpha b c w ->
  alpha < Score.min s c ->
  min_inv alpha beta0 (Score.min s c) (Score.min t w)
          (Score.min b (Score.min s c)).
Proof.
  unfold min_inv, within. intros Hab Hi Hc.
  do 3 pick_min_max; score_cases.
Qed.

(** The same for a MAX node: [a] is the current [alpha], [alpha0] the
    [alpha] the node was entered with. *)
Definition max_inv (alpha0 beta s t a : Score.t) : Prop :=
  (s <= alpha0 -> t <= s) /\ (alpha0 < s -> s == t) /\
  s < beta /\ alpha0 <= a /\ s <= a /\ (a <= alpha0 \/ a <= s).

Lemma max_inv_start alpha beta : alpha < beta -> max_inv alpha beta NegInf NegInf alpha.
Proof.
  intros Hab. pose proof (neginf_le alpha). unfold max_inv. score_cases.
Qed.

Lemma max_inv_window {alpha0 beta s t a} :
  alpha0 < beta -> max_inv alpha0 beta s t a -> a < beta.
Proof. unfold max_inv. score_cases. Qed.

Lemma max_inv_end {alpha0 beta s t a} :
  max_inv alpha0 beta s t a -> within alpha0 beta s t.
Proof. unfold max_inv, within. score_cases. Qed.

Lemma max_inv_cut alpha0 beta s t a c w V :
  alpha0 < beta -> max_inv alpha0 beta s t a -> within a beta c w ->
  beta <= Score.max s c -> Score.max t w <= V ->
  within alpha0 beta (Score.max s c) V.
Proof.
  unfold max_inv, within. intros Hab Hi Hc.
  do 2 pick_min_max; score_cases.
Qed.

Lemma max_inv_step alpha0 beta s t a c w :
  alpha0 < beta -> max_inv alpha0 beta s t a -> within a beta c w ->
  Score.max s c < beta ->
  max_inv alpha0 beta (Score.max s c) (Score.max t w)
          (Score.max a (Score.max s c)).
Proof.
  unfold max_inv, within. intros Hab Hi Hc.
  do 3 pick_min_max; score_cases.
Qed.

(** One round of the root loop: [a] is its [alpha], [bs] its
    [best_score], [t] the true maximum so far. *)
Lemma root_step {a bs t c w} :
  a == bs -> bs == t ->
  (a < PosInf -> within a PosInf c w) ->
  Score.max a c == Score.max bs c /\ Score.max bs c == Score.max t w.
Proof.
  intros H1 H2 Hc. unfold within in Hc.
  pose proof (le_posinf a). pose proof (le_posinf c).
  pose proof (le_posinf w). pose proof (le_posinf t).
  do 3 pick_min_max; score_cases.
Qed.

End Windows.

Section Pruning.
Context {Board Player : Type} `{BoardAPI Board Player}.
Variable self : IsolationPlayer Board Player.
Local Open Scope score_scope.

Lemma fold_min_le (f : Move -> Score.t) moves :
  forall t, fold_left (fun v m => Score.min v (f m)) moves t <= t.
Proof.
  induction moves as [|m rest IH]; intros t; simpl.
  - ScoreTac.order.
  - specialize (IH (Score.min t (f m))).
    destruct (min_cases t (f m)) as [[? E] | [? E]]; rewrite E in *;
      ScoreTac.order.
Qed.

Lemma fold_max_ge (f : Move -> Score.t) moves :
  forall t, t <= fold_left (fun v m => Score.max v (f m)) moves t.
Proof.
  induction moves as [|m rest IH]; intros t; simpl.
  - ScoreTac.order.
  - specialize (IH (Score.max t (f m))).
    destruct (max_cases t (f m)) as [[? E] | [? E]]; rewrite E in *;
      ScoreTac.order.
Qed.

(** The loop of a MIN node, run on children that keep their promise,
    keeps the promise for the node. *)
Lemma min_scan_within
    (child : Board -> Score.t -> Score.t -> Score.t)
    (value : Board -> Score.t) (game : Board) (alpha beta0 : Score.t)
    (moves : list Move) :
  alpha < beta0 ->
  (forall m b, In m moves -> alpha < b ->
     within alpha b (child (forecast_move game m) alpha b)
            (value (forecast_move game m))) ->
  forall s t b,
    min_inv alpha beta0 s t b ->
    within alpha beta0
      (Value.min_scan child game moves s alpha b)
      (fold_left (fun v m => Score.min v (value (forecast_move game m)))
                 moves t).
Proof.
  intros Hab. induction moves as [|m rest IH]; intros Hchild s t b Hi; simpl.
  - exact (min_inv_end Hi).
  - pose proof (min_inv_window Hab Hi) as Hb.
    pose proof (Hchild m b (or_introl eq_refl) Hb) as Hc.
    destruct (Score.leb _ alpha) eqn:Ecut; score_bools.
    + eapply min_inv_cut; eauto. apply fold_min_le.
    + apply IH.
      * intros m' b' Hin. apply Hchild. now right.
      * apply min_inv_step; auto.
Qed.

Lemma max_scan_within
    (child : Board -> Score.t -> Score.t -> Score.t)
    (value : Board -> Score.t) (game : Board) (alpha0 beta : Score.t)
    (moves : list Move) :
  alpha0 < beta ->
  (forall m a, In m moves -> a < beta ->
     within a beta (child (forecast_move game m) a beta)
            (value (forecast_move game m))) ->
  forall s t a,
    max_inv alpha0 beta s t a ->
    within alpha0 beta
      (Value.max_scan child game moves s a beta)
      (fold_left (fun v m => Score.max v (value (forecast_move game m)))
                 moves t).
Proof.
  intros Hab. induction moves as [|m rest IH]; intros Hchild s t a Hi; simpl.
  - exact (max_inv_end Hi).
  - pose proof (max_inv_window Hab Hi) as Ha.
    pose proof (Hchild m a (or_introl eq_refl) Ha) as Hc.
    destruct (Score.leb beta _) eqn:Ecut; score_bools.
    + eapply max_inv_cut; eauto. apply fold_max_ge.
    + apply IH.
      * intros m' a' Hin. apply Hchild. now right.
      * apply max_inv_step; auto.
Qed.

Variable root : Board.
Hypothesis contract : Value.decisive_at_terminals self root.

Lemma is_empty_nil {A} (l : list A) : is_empty l = true -> l = [].
Proof. destruct l; [reflexivity | discriminate]. Qed.

(** Below [root], the alpha-beta value of every node keeps the promise
    of its window about the minimax value of the node. *)
Lemma alphabeta_kernel_within n :
  forall game,
    (Value.reach root false game ->
     forall alpha beta, alpha < beta ->
       within alpha beta (Value.alphabeta_min self n game alpha beta)
              (Value.minimax_min self n game))
    /\ (Value.reach root true game ->
        forall alpha beta, alpha < beta ->
          within alpha beta (Value.alphabeta_max self n game alpha beta)
                 (Value.minimax_max self n game)).
Proof.
  induction n as [|n IH]; intros game.
  - split; intros Hr alpha beta Hab; simpl;
      destruct (is_empty (get_legal_moves game)) eqn:E; apply within_eq;
      try reflexivity;
      apply (contract _ _ Hr (is_empty_nil _ E)).
  - split; intros Hr alpha beta Hab; simpl;
      destruct (is_empty (get_legal_moves game)) eqn:E;
      try (apply within_eq; reflexivity).
    + apply min_scan_within; auto using min_inv_start.
      intros m b Hin Hb.
      apply (proj2 (IH (forecast_move game m)));
        [exact (Value.reach_step _ _ _ _ Hr Hin) | exact Hb].
    + apply max_scan_within; auto using max_inv_start.
      intros m a Hin Ha.
      apply (proj1 (IH (forecast_move game m)));
        [exact (Value.reach_step _ _ _ _ Hr Hin) | exact Ha].
Qed.

Lemma best_by_key_value (key : Move -> Score.t) items :
  forall best best_key,
    snd (Value.best_by_key key items best best_key)
    = fold_left (fun v m => Score.max v (key m)) items best_key.
Proof.
  induction items as [|m rest IH]; intros best best_key; simpl.
  - reflexivity.
  - unfold Score.max at 2.
    destruct (Score.ltb best_key (key m)); apply IH.
Qed.

(** The root loop of [alphabeta], started with [beta = +inf], ends with
    the maximum of the minimax values of the root moves. *)
Lemma alphabeta_root_value n moves :
  incl moves (get_legal_moves root) ->
  forall a bs bm t,
    a == bs -> bs == t ->
    fst (Value.alphabeta_root self n root moves a PosInf bs bm)
    == fold_left (fun v m =>
         Score.max v (Value.minimax_min self n (forecast_move root m)))
         moves t.
Proof.
  induction moves as [|m rest IH]; intros Hincl a bs bm t H1 H2; simpl.
  - exact H2.
  - assert (Hin : In m (get_legal_moves root)) by (apply Hincl; now left).
    assert (Hrest : incl rest (get_legal_moves root))
      by (intros x Hx; apply Hincl; now right).
    set (c := Value.alphabeta_min self n (forecast_move root m) a PosInf).
    set (w := Value.minimax_min self n (forecast_move root m)).
    assert (Hc : a < PosInf -> within a PosInf c w).
    { intros Ha.
      apply (proj1 (alphabeta_kernel_within n (forecast_move root m)));
        [| exact Ha].
      exact (Value.reach_step _ _ _ _ (Value.reach_root root) Hin). }
    destruct (root_step H1 H2 Hc) as [E1 E2].
    unfold Score.max at 2 in E1. unfold Score.max at 1 in E2.
    destruct (Score.ltb bs c); apply IH; auto.
Qed.

End Pruning.

(* ================================================================== *)
(** * Alpha-beta against minimax at the root                           *)
(* ================================================================== *)

(** C2 (counterexample): with an evaluator that scores every state 0, at
    depth 1 on a state whose only move blocks the opponent, minimax values
    the root [+inf] ([min_value] tests for a blocked mover first) and
    alpha-beta values it 0 ([min_value] tests for depth 0 first). *)
Lemma alphabeta_root_value_differs_flat_evaluator :
  get_legal_moves one_move <> [] /\
  fst (AlphaBetaPlayer.alphabeta_search flat_agent plenty_of_time 5
         one_move 1 NegInf PosInf start) = Ret (Fin 0, (2, 3)) /\
  fst (MinimaxPlayer.minimax_search flat_agent plenty_of_time 5
         one_move 1 start) = Ret ((2, 3), PosInf) /\
  ~ Score.eq (Fin 0) PosInf.
Proof.
  split; [discriminate |]. split; [reflexivity |]. split; [reflexivity |].
  simpl. tauto.
Qed.

Section RootValue.
Context {Board Player : Type} `{BoardAPI Board Player}.
Variable self : IsolationPlayer Board Player.
Variable time_left : nat -> Q.
Local Open Scope score_scope.

(** C2 (amended): for an evaluator that keeps the terminal contract on
    the search tree of the state, a state with at least one legal move and
    a depth [d >= 1], when no timeout is raised, [alphabeta] and [minimax]
    both return and the best score of the former equals the root value of
    the latter. *)
Theorem alphabeta_root_value_is_minimax fuel game depth w :
  never_late self time_left ->
  Value.decisive_at_terminals self game ->
  get_legal_moves game <> [] ->
  (1 <= depth <= Z.of_nat fuel)%Z ->
  exists score_ab move_ab w_ab move_mm value_mm w_mm,
    AlphaBetaPlayer.alphabeta_search self time_left fuel game depth
      NegInf PosInf w = (Ret (score_ab, move_ab), w_ab)
    /\ MinimaxPlayer.minimax_search self time_left fuel game depth w
       = (Ret (move_mm, value_mm), w_mm)
    /\ score_ab == value_mm.
Proof.
  intros Htime Hcontract Hmoves Hd.
  destruct (alphabeta_search_returns self time_left Htime fuel game depth
              NegInf PosInf Hmoves Hd w) as [w_ab Eab].
  destruct (get_legal_moves game) as [|m rest] eqn:Em; [congruence |].
  destruct (minimax_search_returns self time_left Htime fuel game depth
              m rest Em Hd w) as [w_mm Emm].
  set (n := Z.to_nat (depth - 1)) in *.
  destruct (Value.alphabeta_root self n game (m :: rest) NegInf PosInf
              NegInf NO_MOVE) as [score_ab move_ab] eqn:Eroot.
  destruct (Value.minimax_root self n game m rest) as [move_mm value_mm]
    eqn:Emin.
  exists score_ab, move_ab, w_ab, move_mm, value_mm, w_mm.
  split; [exact Eab |]. split; [exact Emm |].
  change score_ab with (fst (score_ab, move_ab)). rewrite <- Eroot.
  change value_mm with (snd (move_mm, value_mm)). rewrite <- Emin.
  unfold Value.minimax_root. rewrite best_by_key_value.
  rewrite <- (max_neginf
                (Value.minimax_min self n (forecast_move game m))).
  apply (alphabeta_root_value self game Hcontract n (m :: rest)).
  - rewrite Em. apply incl_refl.
  - reflexivity.
  - reflexivity.
Qed.

End RootValue.

(** The stock evaluator keeps the terminal contract below [doomed]. *)
Lemma doomed_reach kind game :
  Value.reach doomed kind game ->
  (kind = true /\ game = doomed)
  \/ (kind = false /\ game = cornered)
  \/ (kind = true /\ game = blocked true).
Proof.
  induction 1 as [|kind game m Hr IH Hin].
  - now left.
  - destruct IH as [[-> ->] | [[-> ->] | [-> ->]]].
    + destruct Hin as [<- | []]. right. now left.
    + destruct Hin as [<- | []]. right. now right.
    + destruct Hin.
Qed.

Lemma doomed_contract : Value.decisive_at_terminals stock_agent doomed.
Proof.
  intros kind game Hr Hnil.
  destruct (doomed_reach kind game Hr) as [[-> ->] | [[-> ->] | [-> ->]]].
  - discriminate Hnil.
  - discriminate Hnil.
  - exact I.
Qed.

Lemma plenty_of_time_never_late : never_late stock_agent plenty_of_time.
Proof. intros n. reflexivity. Qed.

Lemma alphabeta_root_value_is_minimax_witness :
  exists score_ab move_ab w_ab move_mm value_mm w_mm,
    AlphaBetaPlayer.alphabeta_search stock_agent plenty_of_time 5 doomed 2
      NegInf PosInf start = (Ret (score_ab, move_ab), w_ab)
    /\ MinimaxPlayer.minimax_search stock_agent plenty_of_time 5 doomed 2
         start = (Ret (move_mm, value_mm), w_mm)
    /\ Score.eq score_ab value_mm.
Proof.
  apply (alphabeta_root_value_is_minimax stock_agent plenty_of_time 5
           doomed 2 start).
  - exact plenty_of_time_never_late.
  - exact doomed_contract.
  - discriminate.
  - simpl. lia.
Defined.

(* ================================================================== *)
(** * Iterative deepening                                              *)
(* ================================================================== *)

Lemma last_nonempty_default {A} (l : list A) :
  forall a d d', last (a :: l) d = last (a :: l) d'.
Proof.
  induction l as [|b l IH]; intros a d d'; [reflexivity |].
  change (last (b :: l) d = last (b :: l) d'). apply IH.
Qed.

Lemma last_cons_default {A} (a : A) (l : list A) (d : A) :
  last (a :: l) d = last l a.
Proof.
  destruct l as [|b l]; [reflexivity |].
  change (last (b :: l) d = last (b :: l) a). apply last_nonempty_default.
Qed.

Section Deepening.
Context {Board Player : Type} `{BoardAPI Board Player}.
Variable self : IsolationPlayer Board Player.
Variable time_left : nat -> Q.

(** The [n]-th reading of the clock is below the threshold. *)
Definition late_at (n : nat) : Prop :=
  Qltb (time_left n) (TIMER_THRESHOLD self) = true.

(** Every clock reading made from world [w] up to world [w'] was in
    time. *)
Definition in_time_between (w w' : world Board) : Prop :=
  forall i, (clock w <= i < clock w')%nat -> ~ late_at i.

(** [c] ends by returning or by [SearchTimeout], never otherwise; when it
    returns, every clock reading it made was in time. *)
Definition sound {A : Type} (c : M (world Board) A) : Prop :=
  forall w,
    match c w with
    | (Ret _, w') => (clock w <= clock w')%nat /\ in_time_between w w'
    | (Raise SearchTimeout, _) => True
    | (Raise ValueError, _) => False
    | (OutOfFuel, _) => False
    end.

Lemma sound_ret {A} (a : A) : sound (ret a).
Proof. intros w. simpl. split; [lia |]. intros i Hi. lia. Qed.

Lemma sound_bind {A B} (c : M (world Board) A) (k : A -> M (world Board) B) :
  sound c -> (forall a, sound (k a)) -> sound (bind c k).
Proof.
  intros Hc Hk w. unfold bind. specialize (Hc w).
  destruct (c w) as [[a | [] |] w1]; try exact Hc.
  specialize (Hk a w1).
  destruct (k a w1) as [[b | [] |] w2]; try exact Hk.
  cbn in Hc, Hk |- *.
  destruct Hc as [Hc1 Hc2], Hk as [Hk1 Hk2]. split; [lia |].
  intros i Hi. destruct (Nat.lt_ge_cases i (clock w1)).
  - apply Hc2. lia.
  - apply Hk2. lia.
Qed.

Lemma sound_log e : sound (log e).
Proof.
  intros w. simpl. split; [lia |]. intros i Hi. simpl in Hi. lia.
Qed.

Lemma sound_forecast game m : sound (forecast game m).
Proof.
  unfold forecast. apply sound_bind; [apply sound_log |].
  intros _. apply sound_ret.
Qed.

Lemma sound_evaluate game : sound (evaluate self game).
Proof.
  unfold evaluate. apply sound_bind; [apply sound_log |].
  intros _. apply sound_ret.
Qed.

Lemma sound_time_check : sound (time_check self time_left).
Proof.
  intros w. unfold time_check.
  destruct (Qltb (time_left (clock w)) (TIMER_THRESHOLD self)) eqn:E;
    [exact I |].
  simpl. split; [lia |]. intros i Hi. simpl in Hi.
  assert (i = clock w) by lia. subst i. unfold late_at. congruence.
Qed.

Lemma sound_min_loop
    (child : Board -> Score.t -> Score.t -> M (world Board) Score.t)
    (game : Board) (moves : list Move) :
  (forall g a b, sound (child g a b)) ->
  forall score alpha beta,
    sound (AlphaBetaPlayer.min_loop child game moves score alpha beta).
Proof.
  intros Hc. induction moves as [|m rest IH]; intros score alpha beta; simpl.
  - apply sound_ret.
  - apply sound_bind; [apply sound_forecast |]. intros g'.
    apply sound_bind; [apply Hc |]. intros x.
    destruct (Score.leb _ alpha); [apply sound_ret | apply IH].
Qed.

Lemma sound_max_loop
    (child : Board -> Score.t -> Score.t -> M (world Board) Score.t)
    (game : Board) (moves : list Move) :
  (forall g a b, sound (child g a b)) ->
  forall score alpha beta,
    sound (AlphaBetaPlayer.max_loop child game moves score alpha beta).
Proof.
  intros Hc. induction moves as [|m rest IH]; intros score alpha beta; simpl.
  - apply sound_ret.
  - apply sound_bind; [apply sound_forecast |]. intros g'.
    apply sound_bind; [apply Hc |]. intros x.
    destruct (Score.leb beta _); [apply sound_ret | apply IH].
Qed.

(** With fuel above the depth the alpha-beta kernel is sound, whatever
    the clock does. *)
Lemma sound_alphabeta_kernel fuel :
  forall depth game alpha beta,
    0 <= depth < Z.of_nat fuel ->
    sound (AlphaBetaPlayer.min_value self time_left fuel game depth
             alpha beta)
    /\ sound (AlphaBetaPlayer.max_value self time_left fuel game depth
                alpha beta).
Proof.
  induction fuel as [|fuel IH]; intros depth game alpha beta Hd; [lia |].
  split; simpl;
    (apply sound_bind; [apply sound_time_check |]); intros _;
    destruct (depth =? 0) eqn:E; try apply sound_evaluate;
    apply Z.eqb_neq in E;
    destruct (is_empty (get_legal_moves game)); try apply sound_ret.
  - apply sound_min_loop. intros g a b. apply IH. lia.
  - apply sound_max_loop. intros g a b. apply IH. lia.
Qed.

Lemma sound_root_loop fuel game depth :
  1 <= depth <= Z.of_nat fuel ->
  forall moves alpha beta best_score best_move,
    sound (AlphaBetaPlayer.root_loop self time_left fuel game depth moves
             alpha beta best_score best_move).
Proof.
  intros Hd. induction moves as [|m rest IH];
    intros alpha beta best_score best_move; simpl.
  - apply sound_ret.
  - apply sound_bind; [apply sound_forecast |]. intros g'.
    apply sound_bind; [apply sound_alphabeta_kernel; lia |]. intros x.
    destruct (Score.ltb best_score x); apply IH.
Qed.

(** [c] reads the clock at least once before it returns. *)
Definition ticks {A : Type} (c : M (world Board) A) : Prop :=
  forall w,
    match c w with
    | (Ret _, w') => (clock w < clock w')%nat
    | _ => True
    end.

Lemma ticks_time_check : ticks (time_check self time_left).
Proof.
  intros w. unfold time_check.
  destruct (Qltb _ _); [exact I |]. simpl. lia.
Qed.

Lemma ticks_bind_l {A B} (c : M (world Board) A)
    (k : A -> M (world Board) B) :
  ticks c -> (forall a, sound (k a)) -> ticks (bind c k).
Proof.
  intros Hc Hk w. unfold bind. specialize (Hc w).
  destruct (c w) as [[a | [] |] w1]; try exact I.
  specialize (Hk a w1).
  destruct (k a w1) as [[b | [] |] w2]; try exact I.
  cbn in Hc, Hk |- *. lia.
Qed.

Lemma ticks_bind_r {A B} (c : M (world Board) A)
    (k : A -> M (world Board) B) :
  sound c -> (forall a, ticks (k a)) -> ticks (bind c k).
Proof.
  intros Hc Hk w. unfold bind. specialize (Hc w).
  destruct (c w) as [[a | [] |] w1]; try exact I.
  specialize (Hk a w1).
  destruct (k a w1) as [[b | [] |] w2]; try exact I.
  cbn in Hc, Hk |- *. lia.
Qed.

Lemma sound_alphabeta_search fuel game depth alpha beta :
  1 <= depth <= Z.of_nat fuel ->
  sound (AlphaBetaPlayer.alphabeta_search self time_left fuel game depth
           alpha beta)
  /\ ticks (AlphaBetaPlayer.alphabeta_search self time_left fuel game depth
              alpha beta).
Proof.
  intros Hd. unfold AlphaBetaPlayer.alphabeta_search.
  assert (Hrest : sound
    (if is_empty (get_legal_moves game) then ret (NegInf, NO_MOVE)
     else AlphaBetaPlayer.root_loop self time_left fuel game depth
            (get_legal_moves game) alpha beta NegInf NO_MOVE)).
  { destruct (is_empty (get_legal_moves game));
      [apply sound_ret | apply sound_root_loop; exact Hd]. }
  split.
  - apply sound_bind; [apply sound_log |]. intros _.
    apply sound_bind; [apply sound_time_check |]. intros _. exact Hrest.
  - apply ticks_bind_r; [apply sound_log |]. intros _.
    apply ticks_bind_l; [apply ticks_time_check |]. intros _. exact Hrest.
Qed.

(** A call of [alphabeta] at depth [d >= 1] ends by returning or by
    [SearchTimeout]; when it returns it has read the clock at least once,
    and every reading was in time. *)
Lemma alphabeta_round fuel game depth alpha beta w :
  1 <= depth <= Z.of_nat fuel ->
  match AlphaBetaPlayer.alphabeta self time_left fuel game depth
          alpha beta w with
  | (Ret _, w') => (clock w < clock w')%nat /\ in_time_between w w'
  | (Raise SearchTimeout, _) => True
  | (Raise ValueError, _) => False
  | (OutOfFuel, _) => False
  end.
Proof.
  intros Hd.
  destruct (sound_alphabeta_search fuel game depth alpha beta Hd)
    as [Hsound Hticks].
  assert (Hs : sound (AlphaBetaPlayer.alphabeta self time_left fuel game
                        depth alpha beta)).
  { unfold AlphaBetaPlayer.alphabeta. apply sound_bind; [exact Hsound |].
    intros r. apply sound_ret. }
  assert (Ht : ticks (AlphaBetaPlayer.alphabeta self time_left fuel game
                        depth alpha beta)).
  { unfold AlphaBetaPlayer.alphabeta. apply ticks_bind_l; [exact Hticks |].
    intros r. apply sound_ret. }
  specialize (Hs w). specialize (Ht w).
  destruct (AlphaBetaPlayer.alphabeta self time_left fuel game depth
              alpha beta w) as [[m | [] |] w']; try exact Hs.
  split; [exact Ht | apply Hs].
Qed.

(** The rounds of the loop of [get_move] on [game] from depth [depth] in
    world [w]: the calls of [alphabeta] at depths [depth], [depth + 1],
    ... return the moves [results], in this order, and the call after the
    last of them raises [SearchTimeout], leaving world [w']. *)
Inductive completed_rounds (game : Board)
    : Z -> world Board -> list Move -> world Board -> Prop :=
| rounds_timeout depth fuel w w' :
    AlphaBetaPlayer.alphabeta self time_left fuel game depth NegInf PosInf w
    = (Raise SearchTimeout, w') ->
    completed_rounds game depth w [] w'
| rounds_completed depth fuel w m w1 results w' :
    AlphaBetaPlayer.alphabeta self time_left fuel game depth NegInf PosInf w
    = (Ret m, w1) ->
    completed_rounds game (depth + 1) w1 results w' ->
    completed_rounds game depth w (m :: results) w'.

Lemma deepening_rounds game fuel :
  forall depth best w m w',
    AlphaBetaPlayer.deepening self time_left fuel game depth best w
    = (Ret m, w') ->
    exists results,
      completed_rounds game depth w results w' /\ m = last results best.
Proof.
  induction fuel as [|fuel IH]; intros depth best w m w' Hrun; simpl in Hrun.
  - discriminate.
  - unfold try_timeout in Hrun.
    destruct (AlphaBetaPlayer.alphabeta self time_left fuel game depth
                NegInf PosInf w) as [[m1 | [] |] w1] eqn:E;
      try discriminate.
    + destruct (IH _ _ _ _ _ Hrun) as (results & Hr & ->).
      exists (m1 :: results). split.
      * eapply rounds_completed; eauto.
      * symmetry. apply last_cons_default.
    + inversion Hrun; subst. exists []. split; [| reflexivity].
      eapply rounds_timeout; eauto.
Qed.

Lemma deepening_terminates game N (Hlate : late_at N) k :
  forall depth best w fuel,
    (clock w <= N)%nat -> (N - clock w < k)%nat ->
    1 <= depth -> depth + 2 * Z.of_nat k <= Z.of_nat fuel ->
    exists m w',
      AlphaBetaPlayer.deepening self time_left fuel game depth best w
      = (Ret m, w').
Proof.
  induction k as [|k IH]; intros depth best w fuel Hw Hk Hd Hfuel; [lia |].
  destruct fuel as [|fuel]; [lia |]. simpl. unfold try_timeout.
  pose proof (alphabeta_round fuel game depth NegInf PosInf w) as Hround.
  destruct (AlphaBetaPlayer.alphabeta self time_left fuel game depth
              NegInf PosInf w) as [[m1 | [] |] w1].
  - destruct Hround as [Hlt Hin]; [lia |].
    assert (clock w1 <= N)%nat.
    { destruct (Nat.le_gt_cases (clock w1) N) as [|Hgt]; [assumption |].
      exfalso. apply (Hin N); [lia | exact Hlate]. }
    apply IH; lia.
  - eexists _, _. reflexivity.
  - exfalso. apply Hround. lia.
  - exfalso. apply Hround. lia.
Qed.

(** The loop started at depth 1 with the sentinel as [best_move]: whenever
    it returns, the calls of [alphabeta] were made at depths 1, 2, 3, ...,
    all but the last returned, the last one raised [SearchTimeout], and
    the move returned is the result of the last call that returned, or
    the sentinel when none did.  If some reading of the clock from now on
    is below the threshold, the loop does return. *)
Lemma deepening_from_depth_one game w :
  (forall fuel m w',
     AlphaBetaPlayer.deepening self time_left fuel game 1 NO_MOVE w
     = (Ret m, w') ->
     exists results,
       completed_rounds game 1 w results w' /\ m = last results NO_MOVE)
  /\ (forall N, (clock w <= N)%nat -> late_at N ->
      exists fuel m w',
        AlphaBetaPlayer.deepening self time_left fuel game 1 NO_MOVE w
        = (Ret m, w')).
Proof.
  split.
  - intros fuel m w' Hrun. exact (deepening_rounds game fuel _ _ _ _ _ Hrun).
  - intros N Hw Hlate.
    exists (Z.to_nat (1 + 2 * Z.of_nat (S (N - clock w)))).
    apply (deepening_terminates game N Hlate (S (N - clock w))); lia.
Qed.

(** [get_move] is this loop unless the opening rule applies. *)
Lemma get_move_runs_deepening fuel game :
  AlphaBetaPlayer.opening_move game = None ->
  AlphaBetaPlayer.get_move self time_left fuel game
  = AlphaBetaPlayer.deepening self time_left fuel game 1 NO_MOVE.
Proof.
  intros Hopen. unfold AlphaBetaPlayer.get_move. rewrite Hopen. reflexivity.
Qed.

(** C3: [AlphaBetaPlayer.get_move] on any state, from any world.  When
    the opening rule applies it returns the opening cell before the loop
    is entered, and the world is as it was.  Otherwise its loop calls
    [alphabeta] at depths 1, 2, 3, ..., each call from the world the
    previous one left; whenever [get_move] returns, all these calls but
    the last returned, the last one raised [SearchTimeout], and the move
    returned is the result of the last call that returned, or the sentinel
    when none did: nothing of the interrupted call is in it.  And
    [get_move] does return once some reading of the clock from now on is
    below the threshold. *)
Theorem get_move_returns_last_completed game w :
  (forall fuel m w',
     AlphaBetaPlayer.get_move self time_left fuel game w = (Ret m, w') ->
     (AlphaBetaPlayer.opening_move game = Some m /\ w' = w)
     \/ (AlphaBetaPlayer.opening_move game = None
         /\ exists results,
              completed_rounds game 1 w results w'
              /\ m = last results NO_MOVE))
  /\ (forall N, (clock w <= N)%nat -> late_at N ->
      exists fuel m w',
        AlphaBetaPlayer.get_move self time_left fuel game w = (Ret m, w')).
Proof.
  unfold AlphaBetaPlayer.get_move.
  destruct (AlphaBetaPlayer.opening_move game) as [first_move|] eqn:Eopen.
  - split.
    + intros fuel m w' Hrun. inversion Hrun; subst. left. split; reflexivity.
    + intros N _ _. exists 0%nat, first_move, w. reflexivity.
  - split.
    + intros fuel m w' Hrun. right. split; [reflexivity |].
      exact (deepening_rounds game fuel _ _ _ _ _ Hrun).
    + intros N Hw Hlate.
      exists (Z.to_nat (1 + 2 * Z.of_nat (S (N - clock w)))).
      apply (deepening_terminates game N Hlate (S (N - clock w))); lia.
Qed.

End Deepening.

(* ================================================================== *)
(** * The root loop of [alphabeta]                                     *)
(* ================================================================== *)

Section RootChoice.
Local Open Scope score_scope.

(** [m] is the first move of [scored] with the maximal score: its score
    strictly exceeds the scores of all moves before it and no move after
    it scores more. *)
Definition first_best (scored : list (Move * Score.t)) (m : Move) : Prop :=
  exists before s after,
    scored = before ++ (m, s) :: after
    /\ Forall (fun x => snd x < s) before
    /\ Forall (fun x => snd x <= s) after.

Lemma Forall_score_lt_le (l : list (Move * Score.t)) s s' :
  s <= s' -> Forall (fun x => snd x <= s) l -> Forall (fun x => snd x <= s') l.
Proof.
  intros Hs. apply Forall_impl. intros x Hx. ScoreTac.order.
Qed.

Lemma root_choice_cases scored :
  forall best_score best_move,
    (Forall (fun x => snd x <= best_score) scored
     /\ root_choice scored best_score best_move = (best_score, best_move))
    \/ (exists before m s after,
          scored = before ++ (m, s) :: after
          /\ root_choice scored best_score best_move = (s, m)
          /\ best_score < s
          /\ Forall (fun x => snd x < s) before
          /\ Forall (fun x => snd x <= s) after).
Proof.
  induction scored as [|[m s] rest IH]; intros best_score best_move; simpl.
  - left. split; [constructor | reflexivity].
  - destruct (Score.ltb best_score s) eqn:E; score_bools.
    + destruct (IH s m) as [[Hall Hr] | (before & m' & s' & after & -> & Hr
                                          & Hlt & Hb & Ha)].
      * right. exists [], m, s, rest.
        assert (Hnil : Forall (fun x : Move * Score.t => snd x < s) [])
          by constructor.
        exact (conj eq_refl (conj Hr (conj E (conj Hnil Hall)))).
      * right. exists ((m, s) :: before), m', s', after.
        assert (Hbs : best_score < s') by ScoreTac.order.
        assert (Hb' : Forall (fun x => snd x < s') ((m, s) :: before))
          by (constructor; assumption).
        exact (conj eq_refl (conj Hr (conj Hbs (conj Hb' Ha)))).
    + destruct (IH best_score best_move)
        as [[Hall Hr] | (before & m' & s' & after & -> & Hr & Hlt & Hb & Ha)].
      * left. split; [| exact Hr]. constructor; [exact E | exact Hall].
      * right. exists ((m, s) :: before), m', s', after.
        assert (Hs : s < s') by ScoreTac.order.
        assert (Hb' : Forall (fun x => snd x < s') ((m, s) :: before))
          by (constructor; assumption).
        exact (conj eq_refl (conj Hr (conj Hlt (conj Hb' Ha)))).
Qed.

(** Started as [alphabeta] starts it, the choice is the first best move
    as soon as some move scores above [-inf]. *)
Lemma root_choice_first_best scored :
  Exists (fun x => NegInf < snd x) scored ->
  first_best scored (snd (root_choice scored NegInf NO_MOVE)).
Proof.
  intros Hex.
  destruct (root_choice_cases scored NegInf NO_MOVE)
    as [[Hall _] | (before & m & s & after & -> & -> & _ & Hb & Ha)].
  - exfalso. apply Exists_exists in Hex. destruct Hex as (x & Hin & Hx).
    rewrite Forall_forall in Hall. specialize (Hall x Hin). ScoreTac.order.
  - exists before, s, after. auto.
Qed.

End RootChoice.

Section RootLoop.
Context {Board Player : Type} `{BoardAPI Board Player}.
Variable self : IsolationPlayer Board Player.
Variable time_left : nat -> Q.
Local Open Scope score_scope.

(** The rounds of the root loop over [moves] from world [w] with the
    [alpha] given: for each move in turn the state is forecast and
    [min_value] returns its score, with [alpha] raised to the best score
    seen so far. *)
Inductive root_scored (fuel : nat) (game : Board) (depth : Z)
    (beta : Score.t)
    : list Move -> Score.t -> world Board ->
      list (Move * Score.t) -> world Board -> Prop :=
| root_scored_nil alpha w :
    root_scored fuel game depth beta [] alpha w [] w
| root_scored_cons m rest alpha w s w1 scored w' :
    AlphaBetaPlayer.min_value self time_left fuel (forecast_move game m)
      (depth - 1) alpha beta
      (World (clock w) (ForecastCall game m :: calls w))
    = (Ret s, w1) ->
    root_scored fuel game depth beta rest (Score.max alpha s) w1 scored w' ->
    root_scored fuel game depth beta (m :: rest) alpha w
                ((m, s) :: scored) w'.

Lemma root_scored_moves fuel game depth beta moves alpha w scored w' :
  root_scored fuel game depth beta moves alpha w scored w' ->
  map fst scored = moves.
Proof. induction 1; simpl; congruence. Qed.

Lemma root_loop_scored fuel game depth beta moves :
  forall alpha best_score best_move w r w',
    AlphaBetaPlayer.root_loop self time_left fuel game depth moves
      alpha beta best_score best_move w = (Ret r, w') ->
    exists scored,
      root_scored fuel game depth beta moves alpha w scored w'
      /\ r = root_choice scored best_score best_move.
Proof.
  induction moves as [|m rest IH];
    intros alpha best_score best_move w r w' Hrun; simpl in Hrun.
  - inversion Hrun; subst. exists []. split; [constructor | reflexivity].
  - unfold bind at 1 in Hrun. unfold forecast, log, bind, ret in Hrun.
    fold (@bind (world Board)) in Hrun.
    destruct (AlphaBetaPlayer.min_value self time_left fuel
                (forecast_move game m) (depth - 1) alpha beta
                (World (clock w) (ForecastCall game m :: calls w)))
      as [[s | e |] w1] eqn:E; try discriminate.
    assert (Hnext :
      exists scored,
        root_scored fuel game depth beta rest (Score.max alpha s) w1
                    scored w'
        /\ r = if Score.ltb best_score s then root_choice scored s m
               else root_choice scored best_score best_move).
    { destruct (Score.ltb best_score s); apply IH; exact Hrun. }
    destruct Hnext as (scored & Hs & Hr).
    exists ((m, s) :: scored). split; [| exact Hr].
    econstructor; eauto.
Qed.

(** On a state with at least one legal move, whenever [alphabeta]
    returns, its root loop has forecast and scored every legal move, in
    enumeration order and without a cutoff, and, if some move scored above
    [-inf], the move returned is the first move with the maximal score:
    its score strictly exceeds the scores of all earlier moves and no
    later move scores more.  At a depth [d >= 1] without timeout,
    [alphabeta] does return. *)
Lemma alphabeta_root_choice fuel game depth alpha beta w :
  get_legal_moves game <> [] ->
  (forall m w',
     AlphaBetaPlayer.alphabeta self time_left fuel game depth alpha beta w
     = (Ret m, w') ->
     exists scored,
       root_scored fuel game depth beta (get_legal_moves game) alpha
         (World (S (clock w)) (AlphabetaCall game depth :: calls w))
         scored w'
       /\ map fst scored = get_legal_moves game
       /\ m = snd (root_choice scored NegInf NO_MOVE)
       /\ (Exists (fun x => NegInf < snd x) scored -> first_best scored m))
  /\ (never_late self time_left ->
      (1 <= depth <= Z.of_nat fuel)%Z ->
      exists m w',
        AlphaBetaPlayer.alphabeta self time_left fuel game depth alpha beta w
        = (Ret m, w')).
Proof.
  intros Hmoves. split.
  - intros m w' Hrun.
    unfold AlphaBetaPlayer.alphabeta, AlphaBetaPlayer.alphabeta_search in Hrun.
    unfold bind at 1 2 3 in Hrun. unfold log, time_check in Hrun.
    simpl in Hrun.
    destruct (Qltb (time_left (clock w)) (TIMER_THRESHOLD self));
      [discriminate |].
    destruct (get_legal_moves game) as [|m0 rest] eqn:Em; [congruence |].
    change (is_empty (m0 :: rest)) with false in Hrun. cbv iota in Hrun.
    destruct (AlphaBetaPlayer.root_loop self time_left fuel game depth
                (m0 :: rest) alpha beta NegInf NO_MOVE
                (World (S (clock w)) (AlphabetaCall game depth :: calls w)))
      as [[r | e |] w1] eqn:E; try discriminate.
    inversion Hrun; subst.
    destruct (root_loop_scored _ _ _ _ _ _ _ _ _ _ _ E) as (scored & Hs & ->).
    exists scored. repeat split; auto.
    + eapply root_scored_moves; exact Hs.
    + intros Hex. apply root_choice_first_best. exact Hex.
  - intros Htime Hd.
    destruct (alphabeta_search_returns self time_left Htime fuel game depth
                alpha beta Hmoves Hd w) as [w' E].
    eexists _, w'. unfold AlphaBetaPlayer.alphabeta, bind. rewrite E.
    reflexivity.
Qed.

End RootLoop.

(* ================================================================== *)
(** * Runs of the root loop and of the deepening loop                  *)
(* ================================================================== *)

Lemma alphabeta_root_choice_witness :
  (forall m w',
     AlphaBetaPlayer.alphabeta counting_agent plenty_of_time 5 fork 1
       NegInf PosInf start = (Ret m, w') ->
     exists scored,
       root_scored counting_agent plenty_of_time 5 fork 1 PosInf
         (get_legal_moves fork) NegInf
         (World 1 [AlphabetaCall fork 1]) scored w'
       /\ map fst scored = get_legal_moves fork
       /\ m = snd (root_choice scored NegInf NO_MOVE)
       /\ (Exists (fun x => Score.lt NegInf (snd x)) scored ->
           first_best scored m))
  /\ (never_late counting_agent plenty_of_time ->
      1 <= 1 <= Z.of_nat 5 ->
      exists m w',
        AlphaBetaPlayer.alphabeta counting_agent plenty_of_time 5 fork 1
          NegInf PosInf start = (Ret m, w')).
Proof.
  apply (alphabeta_root_choice counting_agent plenty_of_time 5 fork 1
           NegInf PosInf start).
  discriminate.
Defined.

(** C10 (as the code behaves): the root loop replaces [best_move] only on
    a score strictly above [best_score], which starts at [-inf].  On
    [doomed] the one legal move (1, 1) is scored [-inf] at depth 2, so it
    never replaces the sentinel: [alphabeta] scores the move and returns
    (-1, -1), which is no root move at all; [minimax] returns (1, 1). *)
Theorem alphabeta_sentinel_despite_legal_move :
  get_legal_moves doomed = [(1, 1)]
  /\ (exists w',
        root_scored stock_agent plenty_of_time 5 doomed 2 PosInf
          (get_legal_moves doomed) NegInf
          (World 1 [AlphabetaCall doomed 2]) [((1, 1), NegInf)] w'
        /\ AlphaBetaPlayer.alphabeta stock_agent plenty_of_time 5 doomed 2
             NegInf PosInf start = (Ret NO_MOVE, w'))
  /\ fst (MinimaxPlayer.minimax stock_agent plenty_of_time 5 doomed 2 start)
     = Ret (1, 1).
Proof.
  split; [reflexivity |]. split; [| reflexivity].
  eexists. split.
  - eapply root_scored_cons; [vm_compute; reflexivity | apply root_scored_nil].
  - vm_compute. reflexivity.
Qed.

(** On [one_move] with that clock, [get_move] completes the rounds at
    depths 1 and 2, is interrupted at depth 3 and returns the move of
    depth 2. *)
Lemma get_move_four_readings :
  AlphaBetaPlayer.get_move stock_agent four_readings 9 one_move start
  = (Ret (2, 3),
     World 5 [ AlphabetaCall one_move 3;
               ForecastCall one_move (2, 3); AlphabetaCall one_move 2;
               ScoreCall (blocked false);
               ForecastCall one_move (2, 3); AlphabetaCall one_move 1 ]).
Proof. reflexivity. Qed.

Lemma get_move_returns_last_completed_witness :
  exists results,
    completed_rounds stock_agent four_readings one_move 1 start results
      (World 5 [ AlphabetaCall one_move 3;
                 ForecastCall one_move (2, 3); AlphabetaCall one_move 2;
                 ScoreCall (blocked false);
                 ForecastCall one_move (2, 3); AlphabetaCall one_move 1 ])
    /\ (2, 3) = last results NO_MOVE.
Proof.
  destruct (proj1 (get_move_returns_last_completed stock_agent four_readings
                     one_move start)
              9%nat (2, 3) _ get_move_four_readings)
    as [[Hopen _] | [_ Hrounds]].
  - vm_compute in Hopen. discriminate Hopen.
  - exact Hrounds.
Defined.

(* ================================================================== *)
(** * What [get_move] can hand back                                    *)
(* ================================================================== *)

Lemma move_eqb_eq (a b : Move) : move_eqb a b = true -> a = b.
Proof.
  destruct a as [a1 a2], b as [b1 b2]. unfold move_eqb. simpl.
  intros Hab. apply andb_prop in Hab. destruct Hab as [H1 H2].
  apply Z.eqb_eq in H1. apply Z.eqb_eq in H2. congruence.
Qed.

Lemma move_in_In (m : Move) (moves : list Move) :
  move_in m moves = true -> In m moves.
Proof.
  unfold move_in. intros Hin. apply existsb_exists in Hin.
  destruct Hin as (x & Hx & E). apply move_eqb_eq in E. congruence.
Qed.

Lemma root_choice_member scored :
  forall best_score best_move,
    snd (root_choice scored best_score best_move) = best_move
    \/ In (snd (root_choice scored best_score best_move)) (map fst scored).
Proof.
  induction scored as [|[m s] rest IH]; intros best_score best_move; simpl.
  - now left.
  - destruct (Score.ltb best_score s).
    + destruct (IH s m) as [-> | Hin]; right; [now left | now right].
    + destruct (IH best_score best_move) as [-> | Hin];
        [now left | right; now right].
Qed.

Section Outcomes.
Context {Board Player : Type} `{BoardAPI Board Player}.
Variable self : IsolationPlayer Board Player.
Variable time_left : nat -> Q.

(** [c] never ends in [ValueError]. *)
Definition no_value_error {A : Type} (c : M (world Board) A) : Prop :=
  forall w, fst (c w) <> Raise ValueError.

Lemma nve_ret {A} (a : A) : no_value_error (ret a).
Proof. intros w. discriminate. Qed.

Lemma nve_bind {A B} (c : M (world Board) A) (k : A -> M (world Board) B) :
  no_value_error c -> (forall a, no_value_error (k a)) ->
  no_value_error (bind c k).
Proof.
  intros Hc Hk w. unfold bind. specialize (Hc w).
  destruct (c w) as [[a | e |] w1]; simpl in *.
  - apply Hk.
  - intros E. apply Hc. inversion E. reflexivity.
  - discriminate.
Qed.

Lemma nve_log e : no_value_error (log (Board := Board) e).
Proof. intros w. discriminate. Qed.

Lemma nve_forecast game m : no_value_error (forecast game m).
Proof.
  unfold forecast. apply nve_bind; [apply nve_log |]. intros _. apply nve_ret.
Qed.

Lemma nve_evaluate game : no_value_error (evaluate self game).
Proof.
  unfold evaluate. apply nve_bind; [apply nve_log |]. intros _. apply nve_ret.
Qed.

Lemma nve_time_check : no_value_error (time_check self time_left).
Proof. intros w. unfold time_check. destruct (Qltb _ _); discriminate. Qed.

Lemma nve_min_loop
    (child : Board -> Score.t -> Score.t -> M (world Board) Score.t)
    (game : Board) (moves : list Move) :
  (forall g a b, no_value_error (child g a b)) ->
  forall score alpha beta,
    no_value_error
      (AlphaBetaPlayer.min_loop child game moves score alpha beta).
Proof.
  intros Hc. induction moves as [|m rest IH]; intros score alpha beta; simpl.
  - apply nve_ret.
  - apply nve_bind; [apply nve_forecast |]. intros g'.
    apply nve_bind; [apply Hc |]. intros x.
    destruct (Score.leb _ alpha); [apply nve_ret | apply IH].
Qed.

Lemma nve_max_loop
    (child : Board -> Score.t -> Score.t -> M (world Board) Score.t)
    (game : Board) (moves : list Move) :
  (forall g a b, no_value_error (child g a b)) ->
  forall score alpha beta,
    no_value_error
      (AlphaBetaPlayer.max_loop child game moves score alpha beta).
Proof.
  intros Hc. induction moves as [|m rest IH]; intros score alpha beta; simpl.
  - apply nve_ret.
  - apply nve_bind; [apply nve_forecast |]. intros g'.
    apply nve_bind; [apply Hc |]. intros x.
    destruct (Score.leb beta _); [apply nve_ret | apply IH].
Qed.

(** At any depth and with any fuel, the alpha-beta kernel raises nothing
    but [SearchTimeout]. *)
Lemma nve_alphabeta_kernel fuel :
  forall depth game alpha beta,
    no_value_error (AlphaBetaPlayer.min_value self time_left fuel game depth
                      alpha beta)
    /\ no_value_error (AlphaBetaPlayer.max_value self time_left fuel game
                         depth alpha beta).
Proof.
  induction fuel as [|fuel IH]; intros depth game alpha beta.
  - split; intros w; discriminate.
  - split; simpl;
      (apply nve_bind; [apply nve_time_check |]); intros _;
      destruct (depth =? 0); try apply nve_evaluate;
      destruct (is_empty (get_legal_moves game)); try apply nve_ret.
    + apply nve_min_loop. intros g a b. apply IH.
    + apply nve_max_loop. intros g a b. apply IH.
Qed.

Lemma nve_root_loop fuel game depth moves :
  forall alpha beta best_score best_move,
    no_value_error
      (AlphaBetaPlayer.root_loop self time_left fuel game depth moves
         alpha beta best_score best_move).
Proof.
  induction moves as [|m rest IH]; intros alpha beta best_score best_move;
    simpl.
  - apply nve_ret.
  - apply nve_bind; [apply nve_forecast |]. intros g'.
    apply nve_bind; [apply nve_alphabeta_kernel |]. intros x.
    destruct (Score.ltb best_score x); apply IH.
Qed.

Lemma nve_alphabeta fuel game depth alpha beta :
  no_value_error
    (AlphaBetaPlayer.alphabeta self time_left fuel game depth alpha beta).
Proof.
  unfold AlphaBetaPlayer.alphabeta, AlphaBetaPlayer.alphabeta_search.
  apply nve_bind; [| intros r; apply nve_ret].
  apply nve_bind; [apply nve_log |]. intros _.
  apply nve_bind; [apply nve_time_check |]. intros _.
  destruct (is_empty (get_legal_moves game));
    [apply nve_ret | apply nve_root_loop].
Qed.

Lemma deepening_never_raises fuel :
  forall game depth best w e,
    fst (AlphaBetaPlayer.deepening self time_left fuel game depth best w)
    <> Raise e.
Proof.
  induction fuel as [|fuel IH]; intros game depth best w e; simpl.
  - discriminate.
  - unfold try_timeout.
    pose proof (nve_alphabeta fuel game depth NegInf PosInf w) as Hnve.
    destruct (AlphaBetaPlayer.alphabeta self time_left fuel game depth
                NegInf PosInf w) as [[m | [] |] w1]; simpl in *.
    + apply IH.
    + discriminate.
    + congruence.
    + discriminate.
Qed.

(** X1: no exception leaves [AlphaBetaPlayer.get_move], neither
    [SearchTimeout] nor any other, on any board, with any clock and at
    any point of the clock. *)
Theorem alphabeta_get_move_never_raises fuel game w e :
  fst (AlphaBetaPlayer.get_move self time_left fuel game w) <> Raise e.
Proof.
  unfold AlphaBetaPlayer.get_move.
  destruct (AlphaBetaPlayer.opening_move game).
  - discriminate.
  - apply deepening_never_raises.
Qed.

(** A call of [alphabeta] that returns hands back the sentinel or one of
    the legal moves. *)
Lemma alphabeta_returns_legal fuel game depth alpha beta w m w' :
  AlphaBetaPlayer.alphabeta self time_left fuel game depth alpha beta w
  = (Ret m, w') ->
  m = NO_MOVE \/ In m (get_legal_moves game).
Proof.
  intros Hrun.
  unfold AlphaBetaPlayer.alphabeta, AlphaBetaPlayer.alphabeta_search in Hrun.
  unfold bind at 1 2 3 in Hrun. unfold log, time_check in Hrun.
  simpl in Hrun.
  destruct (Qltb (time_left (clock w)) (TIMER_THRESHOLD self));
    [discriminate |].
  destruct (get_legal_moves game) as [|m0 rest] eqn:Em.
  - simpl in Hrun. inversion Hrun. now left.
  - change (is_empty (m0 :: rest)) with false in Hrun. cbv iota in Hrun.
    destruct (AlphaBetaPlayer.root_loop self time_left fuel game depth
                (m0 :: rest) alpha beta NegInf NO_MOVE
                (World (S (clock w)) (AlphabetaCall game depth :: calls w)))
      as [[r | e |] w1] eqn:E; try discriminate.
    inversion Hrun; subst.
    destruct (root_loop_scored self time_left fuel game depth beta
                (m0 :: rest) alpha NegInf NO_MOVE _ r w' E)
      as (scored & Hs & ->).
    destruct (root_choice_member scored NegInf NO_MOVE) as [-> | Hin];
      [now left | right].
    erewrite root_scored_moves in Hin by exact Hs. exact Hin.
Qed.

Lemma deepening_returns_legal fuel :
  forall game depth best w m w',
    best = NO_MOVE \/ In best (get_legal_moves game) ->
    AlphaBetaPlayer.deepening self time_left fuel game depth best w
    = (Ret m, w') ->
    m = NO_MOVE \/ In m (get_legal_moves game).
Proof.
  induction fuel as [|fuel IH]; intros game depth best w m w' Hbest Hrun;
    simpl in Hrun.
  - discriminate.
  - unfold try_timeout in Hrun.
    destruct (AlphaBetaPlayer.alphabeta self time_left fuel game depth
                NegInf PosInf w) as [[m1 | [] |] w1] eqn:E;
      try discriminate.
    + apply (IH game (depth + 1) m1 w1 m w'); [| exact Hrun].
      eapply alphabeta_returns_legal; exact E.
    + inversion Hrun; subst. exact Hbest.
Qed.

(** X2: whatever [AlphaBetaPlayer.get_move] returns is the sentinel
    (-1, -1) or a legal move of the active player, and it does return
    once some reading of the clock from now on is below the threshold. *)
Theorem alphabeta_get_move_returns_legal game w :
  (forall fuel m w',
     AlphaBetaPlayer.get_move self time_left fuel game w = (Ret m, w') ->
     m = NO_MOVE \/ In m (get_legal_moves game))
  /\ (forall N, (clock w <= N)%nat -> late_at self time_left N ->
      exists fuel m w',
        AlphaBetaPlayer.get_move self time_left fuel game w = (Ret m, w')).
Proof.
  split.
  - intros fuel m w' Hrun. unfold AlphaBetaPlayer.get_move in Hrun.
    destruct (AlphaBetaPlayer.opening_move game) as [first_move|] eqn:Eo.
    + inversion Hrun; subst. right.
      unfold AlphaBetaPlayer.opening_move in Eo.
      destruct ((move_count game =? 0) || (move_count game =? 1));
        [| discriminate].
      destruct (move_in _ _) eqn:Ein; [| discriminate].
      inversion Eo; subst. apply move_in_In. exact Ein.
    + eapply deepening_returns_legal; [| exact Hrun]. now left.
  - intros N Hw Hlate. unfold AlphaBetaPlayer.get_move.
    destruct (AlphaBetaPlayer.opening_move game) as [first_move|].
    + exists 0%nat, first_move, w. reflexivity.
    + exists (Z.to_nat (1 + 2 * Z.of_nat (S (N - clock w)))).
      apply (deepening_terminates self time_left game N Hlate
               (S (N - clock w))); lia.
Qed.

End Outcomes.

(* ================================================================== *)
(** * [MinimaxPlayer.get_move] when the clock is in time at entry      *)
(* ================================================================== *)

Section MinimaxOutcomes.
Context {Board Player : Type} `{BoardAPI Board Player}.
Variable self : IsolationPlayer Board Player.
Variable time_left : nat -> Q.

Lemma sound_for_moves (body : Score.t -> Move -> M (world Board) Score.t)
    (moves : list Move) :
  (forall v m, sound self time_left (body v m)) ->
  forall v, sound self time_left (for_moves moves v body).
Proof.
  intros Hb. induction moves as [|m rest IH]; intros v; simpl.
  - apply sound_ret.
  - apply sound_bind; [apply Hb | exact IH].
Qed.

Lemma sound_terminal_test game :
  sound self time_left (MinimaxPlayer.terminal_test self time_left game).
Proof.
  unfold MinimaxPlayer.terminal_test.
  apply sound_bind; [apply sound_time_check |]. intros _. apply sound_ret.
Qed.

(** With fuel above the depth the minimax kernel ends by returning or by
    [SearchTimeout], whatever the clock does. *)
Lemma sound_minimax_kernel fuel :
  forall depth game,
    0 <= depth < Z.of_nat fuel ->
    sound self time_left
      (MinimaxPlayer.min_value self time_left fuel game depth)
    /\ sound self time_left
         (MinimaxPlayer.max_value self time_left fuel game depth).
Proof.
  induction fuel as [|fuel IH]; intros depth game Hd; [lia |].
  split; simpl;
    (apply sound_bind; [apply sound_terminal_test |]); intros t;
    destruct t; try apply sound_ret;
    destruct (depth =? 0) eqn:E; try apply sound_evaluate;
    apply Z.eqb_neq in E;
    apply sound_for_moves; intros v m;
    (apply sound_bind; [apply sound_forecast |]); intros g';
    (apply sound_bind; [apply IH; lia |]); intros x; apply sound_ret.
Qed.

Lemma max_scan_member (key : Move -> M (world Board) Score.t) :
  (forall m, sound self time_left (key m)) ->
  forall items best best_key w,
    match max_scan key items best best_key w with
    | (Ret (m, _), _) => m = best \/ In m items
    | (Raise SearchTimeout, _) => True
    | (Raise ValueError, _) => False
    | (OutOfFuel, _) => False
    end.
Proof.
  intros Hk. induction items as [|m0 rest IH]; intros best best_key w; simpl.
  - now left.
  - unfold bind. specialize (Hk m0 w).
    destruct (key m0 w) as [[k | [] |] w1]; try exact Hk.
    destruct (Score.ltb best_key k).
    + specialize (IH m0 k w1).
      destruct (max_scan key rest m0 k w1) as [[[m k'] | [] |] w2];
        try exact IH.
      destruct IH as [-> | Hin]; right; [now left | now right].
    + specialize (IH best best_key w1).
      destruct (max_scan key rest best best_key w1)
        as [[[m k'] | [] |] w2]; try exact IH.
      destruct IH as [-> | Hin]; [now left | right; now right].
Qed.

Lemma py_max_member (key : Move -> M (world Board) Score.t) items w :
  (forall m, sound self time_left (key m)) ->
  items <> [] ->
  match py_max items key w with
  | (Ret (m, _), _) => In m items
  | (Raise SearchTimeout, _) => True
  | (Raise ValueError, _) => False
  | (OutOfFuel, _) => False
  end.
Proof.
  intros Hk Hne. destruct items as [|m0 rest]; [congruence |].
  unfold py_max, bind. pose proof (Hk m0 w) as Hk0.
  destruct (key m0 w) as [[k | [] |] w1]; try exact Hk0.
  pose proof (max_scan_member key Hk rest m0 k w1) as Hscan.
  destruct (max_scan key rest m0 k w1) as [[[m k'] | [] |] w2];
    try exact Hscan.
  destruct Hscan as [-> | Hin]; [now left | now right].
Qed.

(** X3: with a search depth of at least 1 and the clock in time when
    [MinimaxPlayer.get_move] is entered, the call returns: no exception
    reaches the caller, whatever the clock does afterwards.  The move
    returned is the sentinel (-1, -1) or a legal move, and it is the
    sentinel on a state without legal moves. *)
Theorem minimax_get_move_in_time fuel game w :
  1 <= search_depth self <= Z.of_nat fuel ->
  ~ late self time_left w ->
  exists m w',
    MinimaxPlayer.get_move self time_left fuel game w = (Ret m, w')
    /\ (m = NO_MOVE \/ In m (get_legal_moves game))
    /\ (get_legal_moves game = [] -> m = NO_MOVE).
Proof.
  intros Hd Hl.
  unfold MinimaxPlayer.get_move, MinimaxPlayer.terminal_test.
  unfold bind at 1 2.
  rewrite (time_check_in_time self time_left w Hl). unfold ret at 1.
  destruct (get_legal_moves game) as [|m0 rest] eqn:Em.
  - simpl. eexists _, _. split; [reflexivity |]. split; [now left | auto].
  - change (is_empty (m0 :: rest)) with false. cbv iota.
    unfold try_timeout, MinimaxPlayer.minimax, MinimaxPlayer.minimax_search.
    unfold bind at 1. rewrite Em.
    assert (Hkey : forall m,
      sound self time_left
        (g' <- forecast game m;;
         MinimaxPlayer.min_value self time_left fuel g'
           (search_depth self - 1))).
    { intros m. apply sound_bind; [apply sound_forecast |]. intros g'.
      apply sound_minimax_kernel. lia. }
    pose proof (py_max_member _ (m0 :: rest) (ticked w) Hkey) as Hmax.
    destruct (py_max (m0 :: rest) _ (ticked w)) as [[[m k] | [] |] w1].
    + simpl. eexists _, _. split; [reflexivity |].
      split; [right; apply Hmax; discriminate | discriminate].
    + eexists _, _. split; [reflexivity |].
      split; [now left | discriminate].
    + exfalso. apply Hmax. discriminate.
    + exfalso. apply Hmax. discriminate.
Qed.

(** X4: the five search functions that check the clock do so before
    anything else: entered with the clock below the threshold, each of
    them raises [SearchTimeout] after that one reading, and neither
    [forecast_move] nor the evaluator has been called. *)
Theorem search_functions_check_clock_first fuel game depth alpha beta w :
  late self time_left w ->
  MinimaxPlayer.min_value self time_left (S fuel) game depth w
  = (Raise SearchTimeout, ticked w)
  /\ MinimaxPlayer.max_value self time_left (S fuel) game depth w
     = (Raise SearchTimeout, ticked w)
  /\ AlphaBetaPlayer.min_value self time_left (S fuel) game depth
       alpha beta w = (Raise SearchTimeout, ticked w)
  /\ AlphaBetaPlayer.max_value self time_left (S fuel) game depth
       alpha beta w = (Raise SearchTimeout, ticked w)
  /\ AlphaBetaPlayer.alphabeta self time_left fuel game depth alpha beta w
     = (Raise SearchTimeout,
        World (S (clock w)) (AlphabetaCall game depth :: calls w)).
Proof.
  intros Hl.
  split; [apply minimax_min_value_guard; exact Hl |].
  split; [apply minimax_max_value_guard; exact Hl |].
  split; [apply alphabeta_min_value_guard; exact Hl |].
  split; [apply alphabeta_max_value_guard; exact Hl |].
  apply alphabeta_guard; exact Hl.
Qed.

End MinimaxOutcomes.

Lemma minimax_get_move_in_time_witness :
  exists m w',
    MinimaxPlayer.get_move stock_agent four_readings 5 doomed start
    = (Ret m, w')
    /\ (m = NO_MOVE \/ In m (get_legal_moves doomed))
    /\ (get_legal_moves doomed = [] -> m = NO_MOVE).
Proof.
  apply (minimax_get_move_in_time stock_agent four_readings 5 doomed start).
  - simpl. lia.
  - unfold late. simpl. discriminate.
Defined.

Lemma search_functions_check_clock_first_witness :
  MinimaxPlayer.min_value stock_agent out_of_time 3 one_move 2 start
  = (Raise SearchTimeout, World 1 [])
  /\ MinimaxPlayer.max_value stock_agent out_of_time 3 one_move 2 start
     = (Raise SearchTimeout, World 1 [])
  /\ AlphaBetaPlayer.min_value stock_agent out_of_time 3 one_move 2
       NegInf PosInf start = (Raise SearchTimeout, World 1 [])
  /\ AlphaBetaPlayer.max_value stock_agent out_of_time 3 one_move 2
       NegInf PosInf start = (Raise SearchTimeout, World 1 [])
  /\ AlphaBetaPlayer.alphabeta stock_agent out_of_time 2 one_move 2
       NegInf PosInf start
     = (Raise SearchTimeout, World 1 [AlphabetaCall one_move 2]).
Proof.
  apply (search_functions_check_clock_first stock_agent out_of_time 2
           one_move 2 NegInf PosInf start).
  reflexivity.
Defined.

(* ================================================================== *)
(** * The moves the two searches choose                                *)
(* ================================================================== *)

Section Choices.
Local Open Scope score_scope.

Lemma best_by_key_root_choice (key : Move -> Score.t) items :
  forall best best_key,
    Value.best_by_key key items best best_key
    = (snd (root_choice (map (fun m => (m, key m)) items) best_key best),
       fst (root_choice (map (fun m => (m, key m)) items) best_key best)).
Proof.
  induction items as [|m rest IH]; intros best best_key; simpl.
  - reflexivity.
  - destruct (Score.ltb best_key (key m)); apply IH.
Qed.

(** [max(items, key=...)] picks the first item with the maximal key. *)
Lemma best_by_key_first_best (key : Move -> Score.t) m0 rest :
  first_best (map (fun m => (m, key m)) (m0 :: rest))
             (fst (Value.best_by_key key rest m0 (key m0))).
Proof.
  rewrite best_by_key_root_choice. simpl.
  destruct (root_choice_cases (map (fun m => (m, key m)) rest) (key m0) m0)
    as [[Hall ->] | (before & m & s & after & E & -> & Hlt & Hb & Ha)].
  - exists [], (key m0), (map (fun m => (m, key m)) rest).
    split; [reflexivity |]. split; [constructor | exact Hall].
  - exists ((m0, key m0) :: before), s, after. simpl. rewrite E.
    split; [reflexivity |]. split; [| exact Ha].
    constructor; [exact Hlt | exact Hb].
Qed.

Lemma fold_max_ge_elem (f : Move -> Score.t) moves :
  forall t x, In x moves ->
    f x <= fold_left (fun v m => Score.max v (f m)) moves t.
Proof.
  induction moves as [|m rest IH]; intros t x Hin; simpl.
  - destruct Hin.
  - destruct Hin as [-> | Hin].
    + pose proof (fold_max_ge f rest (Score.max t (f x))) as Hge.
      destruct (max_cases t (f x)) as [[? E] | [? E]]; rewrite E in *;
        ScoreTac.order.
    + apply IH. exact Hin.
Qed.

(** One round of the two root loops side by side: [a], [bs] are the
    [alpha] and [best_score] of [alphabeta], [bk] the best key of [max];
    [c] is the score [alphabeta] gets for the move, [w] its minimax
    value.  Both loops replace their best move, or neither does. *)
Lemma root_step_both {a bs bk c w} :
  a == bs -> bs == bk ->
  (a < PosInf -> within a PosInf c w) ->
  Score.ltb bs c = Score.ltb bk w
  /\ Score.max a c == Score.max bs c
  /\ Score.max bs c == Score.max bk w.
Proof.
  intros H1 H2 Hc.
  destruct (root_step H1 H2 Hc) as [E1 E2]. split; [| split; assumption].
  unfold within in Hc.
  pose proof (le_posinf a). pose proof (le_posinf c).
  pose proof (le_posinf w). pose proof (le_posinf bk).
  clear E1 E2.
  destruct (Score.ltb bs c) eqn:Ea, (Score.ltb bk w) eqn:Eb;
    try reflexivity; exfalso; score_bools; score_cases.
Qed.

End Choices.

Section SameMove.
Context {Board Player : Type} `{BoardAPI Board Player}.
Variable self : IsolationPlayer Board Player.
Variable root : Board.
Hypothesis contract : Value.decisive_at_terminals self root.
Local Open Scope score_scope.

Lemma best_by_key_ge (key : Move -> Score.t) items best best_key :
  best_key <= snd (Value.best_by_key key items best best_key).
Proof. rewrite best_by_key_value. apply fold_max_ge. Qed.

(** The root loop of [alphabeta] and the [max] of [minimax], run over the
    same moves from states that agree, end with equal values; they end
    with the same move when that value is above [-inf], and otherwise
    [alphabeta] still has the move it started with. *)
Lemma root_loops_agree n moves :
  incl moves (get_legal_moves root) ->
  forall a bs bm best bk,
    a == bs -> bs == bk -> (NegInf < bk -> bm = best) ->
    let ab := Value.alphabeta_root self n root moves a PosInf bs bm in
    let mm := Value.best_by_key
                (fun m => Value.minimax_min self n (forecast_move root m))
                moves best bk in
    fst ab == snd mm
    /\ (NegInf < snd mm -> snd ab = fst mm)
    /\ (snd mm <= NegInf -> snd ab = bm).
Proof.
  induction moves as [|m rest IH]; intros Hincl a bs bm best bk H1 H2 H3;
    simpl.
  - split; [exact H2 |]. split; [exact H3 | reflexivity].
  - assert (Hin : In m (get_legal_moves root)) by (apply Hincl; now left).
    assert (Hrest : incl rest (get_legal_moves root))
      by (intros x Hx; apply Hincl; now right).
    set (c := Value.alphabeta_min self n (forecast_move root m) a PosInf).
    set (w := Value.minimax_min self n (forecast_move root m)).
    assert (Hc : a < PosInf -> within a PosInf c w).
    { intros Ha.
      apply (proj1 (alphabeta_kernel_within self root contract n
                      (forecast_move root m))); [| exact Ha].
      exact (Value.reach_step _ _ _ _ (Value.reach_root root) Hin). }
    destruct (root_step_both H1 H2 Hc) as (Eb & E1 & E2).
    rewrite Eb. unfold Score.max at 2 in E1. unfold Score.max in E2.
    rewrite Eb in E1, E2.
    destruct (Score.ltb bk w) eqn:Eupd.
    + destruct (IH Hrest (Score.max a c) c m m w E1 E2 (fun _ => eq_refl))
        as (R1 & R2 & R3).
      split; [exact R1 |]. split; [exact R2 |].
      intros Hlow. exfalso.
      pose proof (best_by_key_ge
                    (fun m => Value.minimax_min self n (forecast_move root m))
                    rest m w) as Hge.
      fold w in Hge. pose proof (neginf_le bk). score_bools.
      ScoreTac.order.
    + exact (IH Hrest (Score.max a c) bs bm best bk E1 E2 H3).
Qed.

End SameMove.

Section WindowFacts.
Local Open Scope score_scope.

Lemma within_full_window r v : within NegInf PosInf r v -> r == v.
Proof.
  unfold within. intros Hw.
  pose proof (neginf_le r). pose proof (le_posinf r).
  pose proof (neginf_le v). pose proof (le_posinf v).
  score_cases.
Qed.

End WindowFacts.

Section RootsAgree.
Context {Board Player : Type} `{BoardAPI Board Player}.
Variable self : IsolationPlayer Board Player.
Variable root : Board.
Hypothesis contract : Value.decisive_at_terminals self root.
Local Open Scope score_scope.

Lemma roots_agree n m0 rest :
  get_legal_moves root = m0 :: rest ->
  let ab := Value.alphabeta_root self n root (m0 :: rest)
              NegInf PosInf NegInf NO_MOVE in
  let mm := Value.minimax_root self n root m0 rest in
  fst ab == snd mm
  /\ (NegInf < snd mm -> snd ab = fst mm)
  /\ (snd mm <= NegInf -> snd ab = NO_MOVE).
Proof.
  intros Em. simpl. unfold Value.minimax_root.
  set (key := fun m => Value.minimax_min self n (forecast_move root m)).
  set (c0 := Value.alphabeta_min self n (forecast_move root m0)
               NegInf PosInf).
  assert (Hin : In m0 (get_legal_moves root)) by (rewrite Em; now left).
  assert (Hrest : incl rest (get_legal_moves root))
    by (rewrite Em; intros x Hx; now right).
  assert (Hc : c0 == key m0).
  { apply within_full_window.
    apply (proj1 (alphabeta_kernel_within self root contract n
                    (forecast_move root m0))); [| exact I].
    exact (Value.reach_step _ _ _ _ (Value.reach_root root) Hin). }
  rewrite max_neginf.
  pose proof (neginf_le c0) as Hlow.
  destruct (Score.ltb NegInf c0) eqn:E; score_bools.
  - destruct (root_loops_agree self root contract n rest Hrest
                c0 c0 m0 m0 (key m0)) as (R1 & R2 & R3);
      [reflexivity | exact Hc | reflexivity |].
    split; [exact R1 |]. split; [exact R2 |].
    intros Hle. exfalso.
    pose proof (best_by_key_ge key rest m0 (key m0)) as Hge.
    fold key in Hle. ScoreTac.order.
  - apply (root_loops_agree self root contract n rest Hrest
             c0 NegInf NO_MOVE m0 (key m0)).
    + ScoreTac.order.
    + ScoreTac.order.
    + intros Hlt. exfalso. ScoreTac.order.
Qed.

End RootsAgree.

Section SearchesAgree.
Context {Board Player : Type} `{BoardAPI Board Player}.
Variable self : IsolationPlayer Board Player.
Variable time_left : nat -> Q.
Local Open Scope score_scope.

(** The shared core of the two theorems that follow. *)
Lemma searches_agree fuel game depth w :
  never_late self time_left ->
  Value.decisive_at_terminals self game ->
  get_legal_moves game <> [] ->
  (1 <= depth <= Z.of_nat fuel)%Z ->
  exists move_ab w_ab move_mm w_mm,
    AlphaBetaPlayer.alphabeta self time_left fuel game depth
      NegInf PosInf w = (Ret move_ab, w_ab)
    /\ MinimaxPlayer.minimax self time_left fuel game depth w
       = (Ret move_mm, w_mm)
    /\ (move_ab = move_mm
        \/ (move_ab = NO_MOVE
            /\ forall x w0, In x (get_legal_moves game) ->
                 exists s w1,
                   MinimaxPlayer.min_value self time_left fuel
                     (forecast_move game x) (depth - 1) w0 = (Ret s, w1)
                   /\ s == NegInf)).
Proof.
  intros Htime Hcontract Hmoves Hd.
  destruct (alphabeta_search_returns self time_left Htime fuel game depth
              NegInf PosInf Hmoves Hd w) as [w_ab Eab].
  destruct (get_legal_moves game) as [|m0 rest] eqn:Em; [congruence |].
  destruct (minimax_search_returns self time_left Htime fuel game depth
              m0 rest Em Hd w) as [w_mm Emm].
  set (n := Z.to_nat (depth - 1)) in *.
  destruct (roots_agree self game Hcontract n m0 rest Em) as (R1 & R2 & R3).
  set (ab := Value.alphabeta_root self n game (m0 :: rest)
               NegInf PosInf NegInf NO_MOVE) in *.
  set (mm := Value.minimax_root self n game m0 rest) in *.
  exists (snd ab), w_ab, (fst mm), w_mm.
  split; [unfold AlphaBetaPlayer.alphabeta, bind; rewrite Eab; reflexivity |].
  split; [unfold MinimaxPlayer.minimax, bind; rewrite Emm; reflexivity |].
  destruct (lt_or_ge NegInf (snd mm)) as [Hhigh | Hlow].
  - left. apply R2. exact Hhigh.
  - right. split; [apply R3; exact Hlow |].
    intros x w0 Hin.
    destruct (proj1 (minimax_kernel_returns self time_left Htime fuel
                       (depth - 1) (forecast_move game x) ltac:(lia)) w0)
      as [w1 E1].
    exists (Value.minimax_min self n (forecast_move game x)), w1.
    split; [exact E1 |].
    assert (Hx : Value.minimax_min self n (forecast_move game x)
                 <= snd mm).
    { unfold mm, Value.minimax_root. rewrite best_by_key_value.
      destruct Hin as [<- | Hin].
      - apply fold_max_ge.
      - apply (fold_max_ge_elem
                 (fun m => Value.minimax_min self n (forecast_move game m))).
        exact Hin. }
    pose proof (neginf_le (Value.minimax_min self n (forecast_move game x))).
    ScoreTac.order.
Qed.

(** X5: for an evaluator that keeps the terminal contract, on a state
    with a legal move, at a depth [d >= 1] and without timeout,
    [alphabeta] returns the very move [minimax] returns, unless every
    root move has the minimax value [-inf]; in that case [alphabeta]
    returns the sentinel (-1, -1). *)
Theorem alphabeta_and_minimax_same_move fuel game depth w :
  never_late self time_left ->
  Value.decisive_at_terminals self game ->
  get_legal_moves game <> [] ->
  (1 <= depth <= Z.of_nat fuel)%Z ->
  exists move_ab w_ab move_mm w_mm,
    AlphaBetaPlayer.alphabeta self time_left fuel game depth
      NegInf PosInf w = (Ret move_ab, w_ab)
    /\ MinimaxPlayer.minimax self time_left fuel game depth w
       = (Ret move_mm, w_mm)
    /\ (move_ab = move_mm
        \/ (move_ab = NO_MOVE
            /\ forall x w0, In x (get_legal_moves game) ->
                 exists s w1,
                   MinimaxPlayer.min_value self time_left fuel
                     (forecast_move game x) (depth - 1) w0 = (Ret s, w1)
                   /\ s == NegInf)).
Proof. exact (searches_agree fuel game depth w). Qed.

(** X6: on a state with a legal move, at a depth [d >= 1] and without
    timeout, [minimax] returns the first legal move, in enumeration
    order, whose [min_value] is maximal: it strictly exceeds the values of
    all earlier moves and no later move has a greater one. *)
Theorem minimax_returns_first_best fuel game depth w :
  never_late self time_left ->
  get_legal_moves game <> [] ->
  (1 <= depth <= Z.of_nat fuel)%Z ->
  exists (value : Move -> Score.t) m w',
    (forall x w0, exists w1,
       MinimaxPlayer.min_value self time_left fuel (forecast_move game x)
         (depth - 1) w0 = (Ret (value x), w1))
    /\ MinimaxPlayer.minimax self time_left fuel game depth w = (Ret m, w')
    /\ first_best (map (fun x => (x, value x)) (get_legal_moves game)) m.
Proof.
  intros Htime Hmoves Hd.
  destruct (get_legal_moves game) as [|m0 rest] eqn:Em; [congruence |].
  destruct (minimax_search_returns self time_left Htime fuel game depth
              m0 rest Em Hd w) as [w' Emm].
  set (n := Z.to_nat (depth - 1)) in *.
  exists (fun x => Value.minimax_min self n (forecast_move game x)),
         (fst (Value.minimax_root self n game m0 rest)), w'.
  split; [| split].
  - intros x w0.
    apply (proj1 (minimax_kernel_returns self time_left Htime fuel
                    (depth - 1) (forecast_move game x) ltac:(lia))).
  - unfold MinimaxPlayer.minimax, bind. rewrite Emm. reflexivity.
  - apply (best_by_key_first_best
             (fun x => Value.minimax_min self n (forecast_move game x))).
Qed.

(** X7: below a state [root] on whose search tree the evaluator keeps the
    terminal contract, without timeout and for a window with
    [alpha < beta], the result [r] of the alpha-beta [min_value] or
    [max_value] at a node relates to the result [v] of the minimax
    function at the same node and depth as the window promises: [r] is an
    upper bound of [v] if [r <= alpha], a lower bound if [r >= beta], and
    equal to [v] in between. *)
Theorem alphabeta_kernel_window fuel root game depth alpha beta w :
  never_late self time_left ->
  Value.decisive_at_terminals self root ->
  alpha < beta ->
  (0 <= depth < Z.of_nat fuel)%Z ->
  (Value.reach root false game ->
   exists r v w_ab w_mm,
     AlphaBetaPlayer.min_value self time_left fuel game depth alpha beta w
     = (Ret r, w_ab)
     /\ MinimaxPlayer.min_value self time_left fuel game depth w
        = (Ret v, w_mm)
     /\ within alpha beta r v)
  /\ (Value.reach root true game ->
      exists r v w_ab w_mm,
        AlphaBetaPlayer.max_value self time_left fuel game depth alpha beta w
        = (Ret r, w_ab)
        /\ MinimaxPlayer.max_value self time_left fuel game depth w
           = (Ret v, w_mm)
        /\ within alpha beta r v).
Proof.
  intros Htime Hcontract Hab Hd.
  destruct (alphabeta_kernel_returns self time_left Htime fuel depth game
              alpha beta Hd) as [Hamin Hamax].
  destruct (minimax_kernel_returns self time_left Htime fuel depth game Hd)
    as [Hmmin Hmmax].
  pose proof (alphabeta_kernel_within self root Hcontract (Z.to_nat depth)
                game) as [Wmin Wmax].
  split; intros Hr.
  - destruct (Hamin w) as [w_ab Ea]. destruct (Hmmin w) as [w_mm Em].
    eexists _, _, w_ab, w_mm. split; [exact Ea |]. split; [exact Em |].
    apply Wmin; assumption.
  - destruct (Hamax w) as [w_ab Ea]. destruct (Hmmax w) as [w_mm Em].
    eexists _, _, w_ab, w_mm. split; [exact Ea |]. split; [exact Em |].
    apply Wmax; assumption.
Qed.

End SearchesAgree.

(* ================================================================== *)
(** * More on the evaluators                                           *)
(* ================================================================== *)

Section EvaluatorBounds.
Context {Board Player : Type} `{BoardAPI Board Player}.

Lemma Qpy_max_ge_l (a b : Q) : (a <= Qpy_max a b)%Q.
Proof.
  unfold Qpy_max, Qltb. destruct (Qle_bool b a) eqn:E; simpl.
  - apply Qle_refl.
  - apply Qlt_le_weak. apply Qnot_le_lt. intros Hle.
    apply Qle_bool_iff in Hle. congruence.
Qed.

Lemma Qpy_max_eq_r (a b : Q) : (a < b)%Q -> Qpy_max a b = b.
Proof.
  intros Hlt. unfold Qpy_max, Qltb.
  destruct (Qle_bool b a) eqn:E; [| reflexivity].
  apply Qle_bool_iff in E. exfalso. exact (Qlt_not_le _ _ Hlt E).
Qed.

Lemma Qpy_max_eq_l (a b : Q) : (b <= a)%Q -> Qpy_max a b = a.
Proof.
  intros Hle. unfold Qpy_max, Qltb.
  apply Qle_bool_iff in Hle. rewrite Hle. reflexivity.
Qed.

(** One distance term of [custom_score_2] lies between 0 and 100. *)
Lemma inverse_distance_bounds (x : Q) :
  (0 <= 1 / Qpy_max (1 # 100) x <= 100)%Q.
Proof.
  pose proof (Qpy_max_ge_l (1 # 100) x) as Hd.
  assert (Hpos : (0 < Qpy_max (1 # 100) x)%Q) by lra.
  split.
  - apply Qle_shift_div_l; [exact Hpos | lra].
  - apply Qle_shift_div_r; [exact Hpos | lra].
Qed.

Lemma center_affinity_sum_bounds (game : Board) (moves : list Move) :
  forall acc,
    let total :=
      fold_left (fun score move =>
        let width_distance :=
          Qpy_max (1 # 100) (inject_Z (width game / 2 - snd move)) in
        let height_distance :=
          Qpy_max (1 # 100) (inject_Z (height game / 2 - fst move)) in
        (score + (1 / width_distance + 1 / height_distance))%Q)
        moves acc in
    (acc <= total
     /\ total <= acc + 200 * inject_Z (Z.of_nat (length moves)))%Q.
Proof.
  induction moves as [|m rest IH]; intros acc; simpl.
  - split; [apply Qle_refl |].
    change (inject_Z 0) with 0%Q. lra.
  - pose proof (inverse_distance_bounds
                  (inject_Z (width game / 2 - snd m))) as Hw.
    pose proof (inverse_distance_bounds
                  (inject_Z (height game / 2 - fst m))) as Hh.
    set (tw := (1 / Qpy_max (1 # 100)
                      (inject_Z (width game / 2 - snd m)))%Q) in *.
    set (th := (1 / Qpy_max (1 # 100)
                      (inject_Z (height game / 2 - fst m)))%Q) in *.
    specialize (IH (acc + (tw + th))%Q). simpl in IH.
    destruct IH as [IH1 IH2].
    assert (Hlen : (inject_Z (Z.pos (Pos.of_succ_nat (length rest)))
                    == inject_Z (Z.of_nat (length rest)) + 1)%Q).
    { rewrite Zpos_P_of_succ_nat. rewrite <- Z.add_1_r.
      rewrite inject_Z_plus. reflexivity. }
    split; [lra |]. rewrite Hlen. lra.
Qed.

(** X8: on a state that neither player has lost, [custom_score_2] is
    finite, at least 0 and at most 200 for each legal move of the
    player. *)
Theorem center_affinity_bounds (game : Board) (player : Player) :
  is_loser game player = false ->
  is_winner game player = false ->
  exists q,
    custom_score_2 game player = Fin q
    /\ (0 <= q)%Q
    /\ (q <= 200 * inject_Z (Z.of_nat
                               (length (legal_moves_of game player))))%Q.
Proof.
  intros Hl Hw. unfold custom_score_2. rewrite Hl, Hw.
  eexists. split; [reflexivity |].
  pose proof (center_affinity_sum_bounds game
                (legal_moves_of game player) 0%Q) as [B1 B2].
  simpl in B1, B2. split; [exact B1 | lra].
Qed.

Lemma Qpy_max_count (n : nat) :
  Qpy_max (1 # 10000) (inject_Z (Z.of_nat n))
  = match n with
    | O => (1 # 10000)%Q
    | S _ => inject_Z (Z.of_nat n)
    end.
Proof.
  destruct n as [|n]; [reflexivity |].
  apply Qpy_max_eq_r.
  apply Qlt_le_trans with (y := 1%Q); [reflexivity |].
  change 1%Q with (inject_Z 1). rewrite <- Zle_Qle. lia.
Qed.

Lemma Qpy_max_count_lt (n1 n2 : nat) :
  (n1 < n2)%nat ->
  (Qpy_max (1 # 10000) (inject_Z (Z.of_nat n1))
   < Qpy_max (1 # 10000) (inject_Z (Z.of_nat n2)))%Q.
Proof.
  intros Hn. rewrite !Qpy_max_count.
  destruct n2 as [|n2]; [lia |].
  destruct n1 as [|n1].
  - apply Qlt_le_trans with (y := 1%Q); [reflexivity |].
    change 1%Q with (inject_Z 1). rewrite <- Zle_Qle. lia.
  - rewrite <- Zlt_Qlt. lia.
Qed.

(** X9: between two states that neither player has lost,
    [custom_score_3] is strictly higher on the one in which the opponent
    has fewer legal moves. *)
Theorem opponent_restriction_decreasing (game1 game2 : Board)
    (player : Player) :
  is_loser game1 player = false -> is_winner game1 player = false ->
  is_loser game2 player = false -> is_winner game2 player = false ->
  (length (legal_moves_of game1 (get_opponent game1 player))
   < length (legal_moves_of game2 (get_opponent game2 player)))%nat ->
  Score.lt (custom_score_3 game2 player) (custom_score_3 game1 player).
Proof.
  intros L1 W1 L2 W2 Hn. unfold custom_score_3.
  rewrite L1, W1, L2, W2. cbv zeta. simpl Score.lt.
  pose proof (Qpy_max_count_lt _ _ Hn) as Hd.
  set (d1 := Qpy_max (1 # 10000) (inject_Z (Z.of_nat (length
               (legal_moves_of game1 (get_opponent game1 player)))))) in *.
  set (d2 := Qpy_max (1 # 10000) (inject_Z (Z.of_nat (length
               (legal_moves_of game2 (get_opponent game2 player)))))) in *.
  assert (Hp1 : (0 < d1)%Q).
  { pose proof (Qpy_max_ge_l (1 # 10000) (inject_Z (Z.of_nat (length
      (legal_moves_of game1 (get_opponent game1 player)))))).
    fold d1 in H0. lra. }
  assert (Hp2 : (0 < d2)%Q) by lra.
  unfold Qdiv.
  apply Qmult_lt_l; [reflexivity |].
  apply -> Qinv_lt_contravar; assumption.
Qed.

End EvaluatorBounds.

(* ================================================================== *)
(** * The stock evaluators under the rule of the game                  *)
(* ================================================================== *)

Section StockEvaluators.
Context {Board Player : Type} `{BoardAPI Board Player}.
Variable self : IsolationPlayer Board Player.
Variable time_left : nat -> Q.
Local Open Scope score_scope.

(** What [is_loser] and [is_winner] answer about the agent on the search
    tree below [root] when the board follows the rule of the game: a
    blocked mover has lost and the other player has won. *)
Definition isolation_rule (root : Board) : Prop :=
  forall kind game,
    Value.reach root kind game ->
    get_legal_moves game = [] ->
    is_loser game (self_id self) = kind
    /\ (kind = false -> is_winner game (self_id self) = true).

Lemma stock_evaluators_decisive root :
  score self = custom_score \/ score self = custom_score_2
  \/ score self = custom_score_3 ->
  isolation_rule root ->
  Value.decisive_at_terminals self root.
Proof.
  intros Hscore Hrule kind game Hr Hnil.
  destruct (Hrule kind game Hr Hnil) as [Hl Hw].
  unfold Value.leaf.
  destruct Hscore as [-> | [-> | ->]];
    unfold custom_score, custom_score_2, custom_score_3; rewrite Hl;
    destruct kind; try reflexivity; rewrite (Hw eq_refl); reflexivity.
Qed.

(** X10: with [custom_score], the default evaluator, on a board that
    follows the rule of the game, a state with a legal move, a depth
    [d >= 1] and no timeout, [alphabeta] returns the move [minimax]
    returns, unless every root move has the minimax value [-inf], in
    which case it returns the sentinel. *)
Theorem custom_score_same_move fuel game depth w :
  score self = custom_score ->
  isolation_rule game ->
  never_late self time_left ->
  get_legal_moves game <> [] ->
  (1 <= depth <= Z.of_nat fuel)%Z ->
  exists move_ab w_ab move_mm w_mm,
    AlphaBetaPlayer.alphabeta self time_left fuel game depth
      NegInf PosInf w = (Ret move_ab, w_ab)
    /\ MinimaxPlayer.minimax self time_left fuel game depth w
       = (Ret move_mm, w_mm)
    /\ (move_ab = move_mm
        \/ (move_ab = NO_MOVE
            /\ forall x w0, In x (get_legal_moves game) ->
                 exists s w1,
                   MinimaxPlayer.min_value self time_left fuel
                     (forecast_move game x) (depth - 1) w0 = (Ret s, w1)
                   /\ s == NegInf)).
Proof.
  intros Hscore Hrule Htime Hmoves Hd.
  apply searches_agree; auto.
  apply stock_evaluators_decisive; [left; exact Hscore | exact Hrule].
Qed.

End StockEvaluators.

(* ================================================================== *)
(** * Concrete runs of the properties above                            *)
(* ================================================================== *)

(** The stock evaluator keeps the terminal contract below [crossroads],
    whose board follows the rule of the game. *)
Lemma crossroads_reach kind game :
  Value.reach crossroads kind game ->
  (kind = true /\ game = crossroads)
  \/ (kind = false /\ game = cornered)
  \/ (kind = true /\ game = blocked true)
  \/ (kind = false /\ game = blocked false).
Proof.
  induction 1 as [|kind game m Hr IH Hin].
  - now left.
  - destruct IH as [[-> ->] | [[-> ->] | [[-> ->] | [-> ->]]]].
    + destruct Hin as [<- | [<- | []]].
      * right. now left.
      * right. right. now right.
    + destruct Hin as [<- | []]. right. right. now left.
    + destruct Hin.
    + destruct Hin.
Qed.

Lemma crossroads_contract :
  Value.decisive_at_terminals stock_agent crossroads.
Proof.
  intros kind game Hr Hnil.
  destruct (crossroads_reach kind game Hr)
    as [[-> ->] | [[-> ->] | [[-> ->] | [-> ->]]]].
  - discriminate Hnil.
  - discriminate Hnil.
  - exact I.
  - exact I.
Qed.

(** On [crossroads] at depth 2 the first move is worth [-inf] and the
    second [+inf]: both searches are bound to return the second. *)
Lemma alphabeta_and_minimax_same_move_witness :
  exists m w_ab w_mm,
    AlphaBetaPlayer.alphabeta stock_agent plenty_of_time 5 crossroads 2
      NegInf PosInf start = (Ret m, w_ab)
    /\ MinimaxPlayer.minimax stock_agent plenty_of_time 5 crossroads 2 start
       = (Ret m, w_mm)
    /\ m = (2, 3).
Proof.
  destruct (alphabeta_and_minimax_same_move stock_agent plenty_of_time 5
              crossroads 2 start plenty_of_time_never_late
              crossroads_contract ltac:(discriminate) ltac:(simpl; lia))
    as (move_ab & w_ab & move_mm & w_mm & Eab & Emm & [Esame | [_ Hlost]]).
  - exists move_ab, w_ab, w_mm. subst move_mm.
    split; [exact Eab |]. split; [exact Emm |].
    vm_compute in Eab. inversion Eab. reflexivity.
  - exfalso.
    destruct (Hlost (2, 3) start (or_intror (or_introl eq_refl)))
      as (s & w1 & E & Hs).
    vm_compute in E. inversion E; subst. exact Hs.
Defined.

Lemma counting_never_late : never_late counting_agent plenty_of_time.
Proof. intros n. reflexivity. Qed.

Lemma minimax_returns_first_best_witness :
  exists (value : Move -> Score.t) m w',
    (forall x w0, exists w1,
       MinimaxPlayer.min_value counting_agent plenty_of_time 5
         (forecast_move fork x) (1 - 1) w0 = (Ret (value x), w1))
    /\ MinimaxPlayer.minimax counting_agent plenty_of_time 5 fork 1 start
       = (Ret m, w')
    /\ first_best (map (fun x => (x, value x)) (get_legal_moves fork)) m.
Proof.
  apply (minimax_returns_first_best counting_agent plenty_of_time 5 fork 1
           start).
  - exact counting_never_late.
  - discriminate.
  - simpl. lia.
Defined.

Lemma alphabeta_kernel_window_witness :
  (Value.reach doomed false cornered ->
   exists r v w_ab w_mm,
     AlphaBetaPlayer.min_value stock_agent plenty_of_time 5 cornered 1
       (Fin 0) (Fin 1) start = (Ret r, w_ab)
     /\ MinimaxPlayer.min_value stock_agent plenty_of_time 5 cornered 1 start
        = (Ret v, w_mm)
     /\ within (Fin 0) (Fin 1) r v)
  /\ (Value.reach doomed true cornered ->
      exists r v w_ab w_mm,
        AlphaBetaPlayer.max_value stock_agent plenty_of_time 5 cornered 1
          (Fin 0) (Fin 1) start = (Ret r, w_ab)
        /\ MinimaxPlayer.max_value stock_agent plenty_of_time 5 cornered 1
             start = (Ret v, w_mm)
        /\ within (Fin 0) (Fin 1) r v).
Proof.
  apply (alphabeta_kernel_window stock_agent plenty_of_time 5 doomed
           cornered 1 (Fin 0) (Fin 1) start).
  - exact plenty_of_time_never_late.
  - exact doomed_contract.
  - reflexivity.
  - simpl. lia.
Defined.

Lemma center_affinity_bounds_witness :
  exists q,
    custom_score_2 (only (3, 3)) true = Fin q
    /\ (0 <= q)%Q
    /\ (q <= 200 * inject_Z (Z.of_nat
                               (length (legal_moves_of (only (3, 3)%Z) true))))%Q.
Proof.
  apply (center_affinity_bounds (only (3, 3)) true); reflexivity.
Defined.

Lemma opponent_restriction_decreasing_witness :
  Score.lt (custom_score_3 tall true) (custom_score_3 (only (3, 3)) true).
Proof.
  apply (opponent_restriction_decreasing (only (3, 3)) tall true);
    try reflexivity.
  simpl. lia.
Defined.

Lemma crossroads_rule : isolation_rule stock_agent crossroads.
Proof.
  intros kind game Hr Hnil.
  destruct (crossroads_reach kind game Hr)
    as [[-> ->] | [[-> ->] | [[-> ->] | [-> ->]]]].
  - discriminate Hnil.
  - discriminate Hnil.
  - split; [reflexivity | discriminate].
  - split; reflexivity.
Qed.

Lemma custom_score_same_move_witness :
  exists m w_ab w_mm,
    AlphaBetaPlayer.alphabeta stock_agent plenty_of_time 5 crossroads 2
      NegInf PosInf start = (Ret m, w_ab)
    /\ MinimaxPlayer.minimax stock_agent plenty_of_time 5 crossroads 2 start
       = (Ret m, w_mm)
    /\ m = (2, 3).
Proof.
  destruct (custom_score_same_move stock_agent plenty_of_time 5
              crossroads 2 start eq_refl crossroads_rule
              plenty_of_time_never_late
              ltac:(discriminate) ltac:(simpl; lia))
    as (move_ab & w_ab & move_mm & w_mm & Eab & Emm & [Esame | [_ Hlost]]).
  - exists move_ab, w_ab, w_mm. subst move_mm.
    split; [exact Eab |]. split; [exact Emm |].
    vm_compute in Eab. inversion Eab. reflexivity.
  - exfalso.
    destruct (Hlost (2, 3) start (or_intror (or_introl eq_refl)))
      as (s & w1 & E & Hs).
    vm_compute in E. inversion E; subst. exact Hs.
Defined.

Lemma custom_score_square_witness :
  custom_score (only (3, 3)) true
  = Fin (inject_Z (asymmetric_mobility_spec (only (3, 3)) true)).
Proof.
  apply (custom_score_square (only (3, 3)) true); try reflexivity.
  simpl. constructor; [intros [] | constructor].
Defined.

Lemma opening_rule_takes_center_witness :
  AlphaBetaPlayer.get_move stock_agent plenty_of_time 5 (empty_board 7 7)
    start
  = (Ret (board_center (empty_board 7 7)), start).
Proof.
  apply (opening_rule_takes_center stock_agent plenty_of_time 5
           (empty_board 7 7) start).
  - left. reflexivity.
  - reflexivity.
  - vm_compute. reflexivity.
Defined.

(* ================================================================== *)
(** * The clock decides how deep the search gets, not what it finds    *)
(* ================================================================== *)

Section Computes.
Context {Board Player : Type} `{BoardAPI Board Player}.
Variable self : IsolationPlayer Board Player.
Variable time_left : nat -> Q.

(** Whenever [c] returns, it returns [a]. *)
Definition computes {A : Type} (c : M (world Board) A) (a : A) : Prop :=
  forall w r w', c w = (Ret r, w') -> r = a.

Lemma computes_ret {A} (a : A) : computes (ret a) a.
Proof. intros w r w' E. inversion E. reflexivity. Qed.

Lemma computes_bind {A B} (c : M (world Board) A)
    (k : A -> M (world Board) B) (a : A) (b : B) :
  computes c a -> computes (k a) b -> computes (bind c k) b.
Proof.
  intros Hc Hk w r w' E. unfold bind in E.
  destruct (c w) as [[x | e |] w1] eqn:Ec; try discriminate.
  rewrite (Hc w x w1 Ec) in E. exact (Hk w1 r w' E).
Qed.

Lemma computes_unit (c : M (world Board) unit) : computes c tt.
Proof. intros w [] w' _. reflexivity. Qed.

Lemma computes_forecast game m :
  computes (forecast game m) (forecast_move game m).
Proof.
  unfold forecast. eapply computes_bind;
    [apply computes_unit | apply computes_ret].
Qed.

Lemma computes_evaluate game :
  computes (evaluate self game) (Value.leaf self game).
Proof.
  unfold evaluate. eapply computes_bind;
    [apply computes_unit | apply computes_ret].
Qed.

Lemma computes_terminal_test game :
  computes (MinimaxPlayer.terminal_test self time_left game)
           (is_empty (get_legal_moves game)).
Proof.
  unfold MinimaxPlayer.terminal_test.
  eapply computes_bind; [apply computes_unit | apply computes_ret].
Qed.

Lemma computes_for_moves (body : Score.t -> Move -> M (world Board) Score.t)
    (step : Score.t -> Move -> Score.t) (moves : list Move) :
  (forall v m, computes (body v m) (step v m)) ->
  forall v, computes (for_moves moves v body) (fold_left step moves v).
Proof.
  intros Hb. induction moves as [|m rest IH]; intros v; simpl.
  - apply computes_ret.
  - eapply computes_bind; [apply Hb | apply IH].
Qed.

Lemma computes_minimax_kernel fuel :
  forall depth game,
    0 <= depth ->
    computes (MinimaxPlayer.min_value self time_left fuel game depth)
             (Value.minimax_min self (Z.to_nat depth) game)
    /\ computes (MinimaxPlayer.max_value self time_left fuel game depth)
                (Value.minimax_max self (Z.to_nat depth) game).
Proof.
  induction fuel as [|fuel IH]; intros depth game Hd.
  - split; intros w r w' E; discriminate.
  - rewrite minimax_min_unfold, minimax_max_unfold.
    split; simpl;
      (eapply computes_bind; [apply computes_terminal_test |]);
      destruct (is_empty (get_legal_moves game)); try apply computes_ret;
      destruct (depth =? 0) eqn:E.
    + apply Z.eqb_eq in E. subst. apply computes_evaluate.
    + apply Z.eqb_neq in E. rewrite (pred_depth depth) by lia.
      apply computes_for_moves. intros v m.
      eapply computes_bind; [apply computes_forecast |].
      eapply computes_bind; [apply IH; lia | apply computes_ret].
    + apply Z.eqb_eq in E. subst. apply computes_evaluate.
    + apply Z.eqb_neq in E. rewrite (pred_depth depth) by lia.
      apply computes_for_moves. intros v m.
      eapply computes_bind; [apply computes_forecast |].
      eapply computes_bind; [apply IH; lia | apply computes_ret].
Qed.

Lemma computes_max_scan (key : Move -> M (world Board) Score.t)
    (key_value : Move -> Score.t) (items : list Move) :
  (forall m, computes (key m) (key_value m)) ->
  forall best best_key,
    computes (max_scan key items best best_key)
             (Value.best_by_key key_value items best best_key).
Proof.
  intros Hk. induction items as [|m rest IH]; intros best best_key; simpl.
  - apply computes_ret.
  - eapply computes_bind; [apply Hk |].
    destruct (Score.ltb best_key (key_value m)); apply IH.
Qed.

Lemma computes_minimax fuel game depth m rest :
  get_legal_moves game = m :: rest ->
  1 <= depth ->
  computes (MinimaxPlayer.minimax self time_left fuel game depth)
           (fst (Value.minimax_root self (Z.to_nat (depth - 1)) game m rest)).
Proof.
  intros Hm Hd. unfold MinimaxPlayer.minimax, MinimaxPlayer.minimax_search.
  rewrite Hm. unfold py_max, Value.minimax_root.
  assert (Hkey : forall m0,
    computes (g' <- forecast game m0;;
              MinimaxPlayer.min_value self time_left fuel g' (depth - 1))
             (Value.minimax_min self (Z.to_nat (depth - 1))
                (forecast_move game m0))).
  { intros m0. eapply computes_bind; [apply computes_forecast |].
    apply computes_minimax_kernel. lia. }
  eapply computes_bind; [| apply computes_ret].
  eapply computes_bind; [apply Hkey |].
  apply (computes_max_scan _ _ rest Hkey).
Qed.

Lemma computes_min_loop
    (child : Board -> Score.t -> Score.t -> M (world Board) Score.t)
    (child_value : Board -> Score.t -> Score.t -> Score.t)
    (game : Board) (moves : list Move) :
  (forall g a b, computes (child g a b) (child_value g a b)) ->
  forall score alpha beta,
    computes (AlphaBetaPlayer.min_loop child game moves score alpha beta)
             (Value.min_scan child_value game moves score alpha beta).
Proof.
  intros Hc. induction moves as [|m rest IH]; intros score alpha beta; simpl.
  - apply computes_ret.
  - eapply computes_bind; [apply computes_forecast |].
    eapply computes_bind; [apply Hc |].
    destruct (Score.leb _ alpha); [apply computes_ret | apply IH].
Qed.

Lemma computes_max_loop
    (child : Board -> Score.t -> Score.t -> M (world Board) Score.t)
    (child_value : Board -> Score.t -> Score.t -> Score.t)
    (game : Board) (moves : list Move) :
  (forall g a b, computes (child g a b) (child_value g a b)) ->
  forall score alpha beta,
    computes (AlphaBetaPlayer.max_loop child game moves score alpha beta)
             (Value.max_scan child_value game moves score alpha beta).
Proof.
  intros Hc. induction moves as [|m rest IH]; intros score alpha beta; simpl.
  - apply computes_ret.
  - eapply computes_bind; [apply computes_forecast |].
    eapply computes_bind; [apply Hc |].
    destruct (Score.leb beta _); [apply computes_ret | apply IH].
Qed.

Lemma computes_alphabeta_kernel fuel :
  forall depth game alpha beta,
    0 <= depth ->
    computes (AlphaBetaPlayer.min_value self time_left fuel game depth
                alpha beta)
             (Value.alphabeta_min self (Z.to_nat depth) game alpha beta)
    /\ computes (AlphaBetaPlayer.max_value self time_left fuel game depth
                   alpha beta)
                (Value.alphabeta_max self (Z.to_nat depth) game alpha beta).
Proof.
  induction fuel as [|fuel IH]; intros depth game alpha beta Hd.
  - split; intros w r w' E; discriminate.
  - split; simpl;
      (eapply computes_bind; [apply computes_unit |]);
      destruct (depth =? 0) eqn:E.
    + apply Z.eqb_eq in E. subst. apply computes_evaluate.
    + apply Z.eqb_neq in E. rewrite (pred_depth depth) by lia. simpl.
      destruct (is_empty (get_legal_moves game)); [apply computes_ret |].
      apply computes_min_loop. intros g a b. apply IH. lia.
    + apply Z.eqb_eq in E. subst. apply computes_evaluate.
    + apply Z.eqb_neq in E. rewrite (pred_depth depth) by lia. simpl.
      destruct (is_empty (get_legal_moves game)); [apply computes_ret |].
      apply computes_max_loop. intros g a b. apply IH. lia.
Qed.

Lemma computes_root_loop fuel game depth :
  1 <= depth ->
  forall moves alpha beta best_score best_move,
    computes (AlphaBetaPlayer.root_loop self time_left fuel game depth moves
                alpha beta best_score best_move)
             (Value.alphabeta_root self (Z.to_nat (depth - 1)) game moves
                alpha beta best_score best_move).
Proof.
  intros Hd. induction moves as [|m rest IH];
    intros alpha beta best_score best_move; simpl.
  - apply computes_ret.
  - eapply computes_bind; [apply computes_forecast |].
    eapply computes_bind; [apply computes_alphabeta_kernel; lia |].
    destruct (Score.ltb best_score _); apply IH.
Qed.

(** The move a search of depth [n + 1] finds on [game] when nothing
    interrupts it. *)
Definition alphabeta_choice (n : nat) (game : Board) : Move :=
  snd (Value.alphabeta_root self n game (get_legal_moves game)
         NegInf PosInf NegInf NO_MOVE).

Lemma computes_alphabeta fuel game depth :
  1 <= depth ->
  computes (AlphaBetaPlayer.alphabeta self time_left fuel game depth
              NegInf PosInf)
           (alphabeta_choice (Z.to_nat (depth - 1)) game).
Proof.
  intros Hd. unfold AlphaBetaPlayer.alphabeta, alphabeta_choice.
  eapply computes_bind; [| apply computes_ret].
  unfold AlphaBetaPlayer.alphabeta_search.
  eapply computes_bind; [apply computes_unit |].
  eapply computes_bind; [apply computes_unit |].
  destruct (get_legal_moves game) as [|m0 rest] eqn:Em.
  - simpl. apply computes_ret.
  - change (is_empty (m0 :: rest)) with false. cbv iota.
    apply computes_root_loop. exact Hd.
Qed.

Lemma deepening_choice fuel :
  forall game depth best w m w',
    1 <= depth ->
    AlphaBetaPlayer.deepening self time_left fuel game depth best w
    = (Ret m, w') ->
    m = best
    \/ exists k, depth <= k
         /\ m = alphabeta_choice (Z.to_nat (k - 1)) game.
Proof.
  induction fuel as [|fuel IH]; intros game depth best w m w' Hd Hrun;
    simpl in Hrun.
  - discriminate.
  - unfold try_timeout in Hrun.
    destruct (AlphaBetaPlayer.alphabeta self time_left fuel game depth
                NegInf PosInf w) as [[m1 | [] |] w1] eqn:E;
      try discriminate.
    + right.
      pose proof (computes_alphabeta fuel game depth Hd w m1 w1 E) as E1.
      destruct (IH game (depth + 1) m1 w1 m w' ltac:(lia) Hrun)
        as [-> | (k & Hk & ->)].
      * exists depth. split; [lia | exact E1].
      * exists k. split; [lia | reflexivity].
    + inversion Hrun; subst. now left.
Qed.

End Computes.

Section ClockIndependence.
Context {Board Player : Type} `{BoardAPI Board Player}.
Variable self : IsolationPlayer Board Player.
Variable time_left : nat -> Q.

(** X11: the clock decides how deep [AlphaBetaPlayer.get_move] searches,
    not what a depth finds.  Unless the opening rule applies, a move
    returned by [get_move] is the sentinel, or it is, for some depth
    [k >= 1], the move that [alphabeta(game, k)] returns under any clock
    that never runs out.  And [get_move] does return once some reading of
    the clock from now on is below the threshold. *)
Theorem get_move_returns_fixed_depth_choice game w :
  AlphaBetaPlayer.opening_move game = None ->
  (forall fuel m w',
     AlphaBetaPlayer.get_move self time_left fuel game w = (Ret m, w') ->
     m = NO_MOVE
     \/ exists k, 1 <= k
          /\ forall patient_clock fuel' w0,
               never_late self patient_clock ->
               k <= Z.of_nat fuel' ->
               exists w1,
                 AlphaBetaPlayer.alphabeta self patient_clock fuel' game k
                   NegInf PosInf w0 = (Ret m, w1))
  /\ (forall N, (clock w <= N)%nat -> late_at self time_left N ->
      exists fuel m w',
        AlphaBetaPlayer.get_move self time_left fuel game w = (Ret m, w')).
Proof.
  intros Hopen. unfold AlphaBetaPlayer.get_move. rewrite Hopen. split.
  - intros fuel m w' Hrun.
    destruct (deepening_choice self time_left fuel game 1 NO_MOVE w m w'
                ltac:(lia) Hrun) as [-> | (k & Hk & ->)]; [now left |].
    right. exists k. split; [exact Hk |].
    intros patient_clock fuel' w0 Hpatient Hfuel.
    destruct (get_legal_moves game) as [|m0 rest] eqn:Em.
    + exists (World (S (clock w0)) (AlphabetaCall game k :: calls w0)).
      unfold AlphaBetaPlayer.alphabeta, AlphaBetaPlayer.alphabeta_search,
        alphabeta_choice.
      unfold bind, log, time_check. simpl.
      rewrite Hpatient, Em. reflexivity.
    + assert (Hne : get_legal_moves game <> []) by (rewrite Em; discriminate).
      destruct (alphabeta_search_returns self patient_clock Hpatient fuel'
                  game k NegInf PosInf Hne ltac:(lia) w0) as [w1 E].
      exists w1. unfold AlphaBetaPlayer.alphabeta, bind. rewrite E.
      unfold alphabeta_choice. reflexivity.
  - intros N Hw Hlate.
    exists (Z.to_nat (1 + 2 * Z.of_nat (S (N - clock w)))).
    apply (deepening_terminates self time_left game N Hlate
             (S (N - clock w))); lia.
Qed.

(** X12: with a search depth of at least 1 and the clock in time at
    entry, [MinimaxPlayer.get_move] on a state with a legal move returns
    the sentinel or the very move that [minimax] returns at that depth
    under any clock that never runs out: a timeout can cost the move, it
    cannot change it. *)
Theorem minimax_get_move_choice fuel game w :
  1 <= search_depth self <= Z.of_nat fuel ->
  ~ late self time_left w ->
  get_legal_moves game <> [] ->
  exists m w',
    MinimaxPlayer.get_move self time_left fuel game w = (Ret m, w')
    /\ (m = NO_MOVE
        \/ forall patient_clock fuel' w0,
             never_late self patient_clock ->
             search_depth self <= Z.of_nat fuel' ->
             exists w1,
               MinimaxPlayer.minimax self patient_clock fuel' game
                 (search_depth self) w0 = (Ret m, w1)).
Proof.
  intros Hd Hl Hne.
  destruct (get_legal_moves game) as [|m0 rest] eqn:Em; [congruence |].
  set (choice := fst (Value.minimax_root self
                        (Z.to_nat (search_depth self - 1)) game m0 rest)).
  assert (Hfixed : forall patient_clock fuel' w0,
             never_late self patient_clock ->
             search_depth self <= Z.of_nat fuel' ->
             exists w1,
               MinimaxPlayer.minimax self patient_clock fuel' game
                 (search_depth self) w0 = (Ret choice, w1)).
  { intros patient_clock fuel' w0 Hpatient Hfuel.
    destruct (minimax_search_returns self patient_clock Hpatient fuel' game
                (search_depth self) m0 rest Em ltac:(lia) w0) as [w2 E2].
    exists w2. unfold MinimaxPlayer.minimax, bind. rewrite E2. reflexivity. }
  assert (Hcore : exists m w',
             MinimaxPlayer.get_move self time_left fuel game w = (Ret m, w')
             /\ (m = NO_MOVE \/ m = choice)).
  { pose proof (computes_minimax self time_left fuel game
                  (search_depth self) m0 rest Em ltac:(lia) (ticked w))
      as Hcomp.
    assert (Hkey : forall m,
      sound self time_left
        (g' <- forecast game m;;
         MinimaxPlayer.min_value self time_left fuel g'
           (search_depth self - 1))).
    { intros m. apply sound_bind; [apply sound_forecast |]. intros g'.
      apply sound_minimax_kernel. lia. }
    pose proof (py_max_member self time_left _ (m0 :: rest) (ticked w) Hkey
                  ltac:(discriminate)) as Hmax.
    unfold MinimaxPlayer.get_move, MinimaxPlayer.terminal_test.
    unfold bind at 1 2.
    rewrite (time_check_in_time self time_left w Hl). unfold ret at 1.
    rewrite Em. change (is_empty (m0 :: rest)) with false. cbv iota.
    unfold try_timeout.
    unfold MinimaxPlayer.minimax, MinimaxPlayer.minimax_search in Hcomp |- *.
    rewrite Em in Hcomp |- *. unfold bind at 1 in Hcomp. unfold bind at 1.
    destruct (py_max (m0 :: rest) _ (ticked w)) as [[[m k] | [] |] w1].
    - simpl. eexists _, _. split; [reflexivity |]. right.
      exact (Hcomp m w1 eq_refl).
    - eexists _, _. split; [reflexivity |]. now left.
    - exfalso. exact Hmax.
    - exfalso. exact Hmax. }
  destruct Hcore as (m & w' & E & [-> | ->]).
  - exists NO_MOVE, w'. split; [exact E | now left].
  - exists choice, w'. split; [exact E | right; exact Hfixed].
Qed.

End ClockIndependence.

Lemma get_move_returns_fixed_depth_choice_witness :
  (forall fuel m w',
     AlphaBetaPlayer.get_move stock_agent four_readings fuel one_move start
     = (Ret m, w') ->
     m = NO_MOVE
     \/ exists k, 1 <= k
          /\ forall patient_clock fuel' w0,
               never_late stock_agent patient_clock ->
               k <= Z.of_nat fuel' ->
               exists w1,
                 AlphaBetaPlayer.alphabeta stock_agent patient_clock fuel'
                   one_move k NegInf PosInf w0 = (Ret m, w1))
  /\ (forall N, (clock start <= N)%nat ->
      late_at stock_agent four_readings N ->
      exists fuel m w',
        AlphaBetaPlayer.get_move stock_agent four_readings fuel one_move
          start = (Ret m, w')).
Proof.
  apply (get_move_returns_fixed_depth_choice stock_agent four_readings
           one_move start).
  reflexivity.
Defined.

Lemma minimax_get_move_choice_witness :
  exists m w',
    MinimaxPlayer.get_move stock_agent four_readings 5 doomed start
    = (Ret m, w')
    /\ (m = NO_MOVE
        \/ forall patient_clock fuel' w0,
             never_late stock_agent patient_clock ->
             search_depth stock_agent <= Z.of_nat fuel' ->
             exists w1,
               MinimaxPlayer.minimax stock_agent patient_clock fuel' doomed
                 (search_depth stock_agent) w0 = (Ret m, w1)).
Proof.
  apply (minimax_get_move_choice stock_agent four_readings 5 doomed start).
  - simpl. lia.
  - unfold late. simpl. discriminate.
  - discriminate.
Defined.
